(** * Fused softmax (python/tutorials/02-fused-softmax.py)

    A shallow embedding of the two Triton kernels [softmax_kernel] and
    [softmax_kernel_big_row] and of the launcher [softmax], with the
    properties of the specification proved about them.

    Floating-point values are modelled in exact arithmetic: a finite value
    is a real number, and the three IEEE special values -inf, +inf and NaN
    are kept apart, because the kernels load -inf at masked positions.
    Device memory is one flat address space; a pointer is an integer. *)

From Stdlib Require Import String.
From Stdlib Require Import ZArith List Bool Reals Lra Lia.
From Stdlib Require Import Permutation Classical_Prop.
Import ListNotations.

Open Scope Z_scope.

(* ================================================================= *)
(** ** Floating-point values *)

Inductive float : Type :=
| NaN
| NInf
| PInf
| Fin (r : R).

(** [a - b], with the IEEE results on the special values. *)
Definition fsub (a b : float) : float :=
  match a, b with
  | NaN, _ | _, NaN => NaN
  | NInf, NInf => NaN
  | PInf, PInf => NaN
  | NInf, _ => NInf
  | PInf, _ => PInf
  | Fin _, NInf => PInf
  | Fin _, PInf => NInf
  | Fin x, Fin y => Fin (x - y)%R
  end.

Definition fadd (a b : float) : float :=
  match a, b with
  | NaN, _ | _, NaN => NaN
  | NInf, PInf => NaN
  | PInf, NInf => NaN
  | NInf, _ => NInf
  | PInf, _ => PInf
  | Fin _, NInf => NInf
  | Fin _, PInf => PInf
  | Fin x, Fin y => Fin (x + y)%R
  end.

(** The sign of a real, as an infinity (used for a division by zero, which
    in exact arithmetic has no signed zero: the divisor counts as +0). *)
Definition inf_of_sign (x : R) : float :=
  if Req_dec_T x 0 then NaN
  else if Rlt_dec 0 x then PInf else NInf.

Definition fdiv (a b : float) : float :=
  match a, b with
  | NaN, _ | _, NaN => NaN
  | Fin x, Fin y =>
      if Req_dec_T y 0 then inf_of_sign x else Fin (x / y)%R
  | Fin _, _ => Fin 0%R
  | _, NInf | _, PInf => NaN
  | PInf, Fin y => if Rlt_dec y 0 then NInf else PInf
  | NInf, Fin y => if Rlt_dec y 0 then PInf else NInf
  end.

Definition fexp (a : float) : float :=
  match a with
  | NaN => NaN
  | NInf => Fin 0%R
  | PInf => PInf
  | Fin x => Fin (exp x)
  end.

(** Maximum of two values; a NaN operand yields the other operand. The
    theorems below only take maxima of finite values and -inf. *)
Definition fmax (a b : float) : float :=
  match a, b with
  | NaN, _ => b
  | _, NaN => a
  | PInf, _ | _, PInf => PInf
  | NInf, _ => b
  | _, NInf => a
  | Fin x, Fin y => Fin (Rmax x y)
  end.

Definition is_nan (a : float) : bool :=
  match a with NaN => true | _ => false end.

(* ================================================================= *)
(** ** Device memory and the event log *)

Definition mem : Type := Z -> float.

Definition upd (m : mem) (p : Z) (v : float) : mem :=
  fun q => if q =? p then v else m q.

(** One entry per [tl.load] and [tl.store] executed, with the pointers of
    the block it was given. *)
Inductive event : Type :=
| EvLoad (ptrs : list Z)
| EvStore (ptrs : list Z).

Definition event_eq_dec (a b : event) : {a = b} + {a <> b}.
Proof. decide equality; apply (list_eq_dec Z.eq_dec). Defined.

Record state : Type := mkState { heap : mem; trace : list event }.

(* ================================================================= *)
(** ** The operations of [triton.language] the kernels use *)

Module tl.

(** [tl.arange(lo, hi)]: the block of integers lo, lo+1, ..., hi-1. *)
Definition arange (lo hi : Z) : list Z :=
  map (fun i => lo + Z.of_nat i) (seq 0 (Z.to_nat (hi - lo))).

(** [tl.zeros((n,), dtype=tl.float32)]. *)
Definition zeros (n : Z) : list float := repeat (Fin 0%R) (Z.to_nat n).

(** Element-wise reading of a block of pointers: [other] where the mask
    is false, and memory is not touched there. *)
Fixpoint gather (m : mem) (ptrs : list Z) (mask : list bool)
         (other : float) : list float :=
  match ptrs, mask with
  | p :: ps, b :: bs => (if b then m p else other) :: gather m ps bs other
  | _, _ => []
  end.

(** [tl.load(ptrs, mask=mask, other=other)]. *)
Definition load (ptrs : list Z) (mask : list bool) (other : float)
           (s : state) : list float * state :=
  (gather (heap s) ptrs mask other,
   mkState (heap s) (trace s ++ [EvLoad ptrs])).

(** Element-wise writing: nothing is written where the mask is false. *)
Fixpoint scatter (m : mem) (ptrs : list Z) (vals : list float)
         (mask : list bool) : mem :=
  match ptrs, vals, mask with
  | p :: ps, v :: vs, b :: bs =>
      scatter (if b then upd m p v else m) ps vs bs
  | _, _, _ => m
  end.

(** [tl.store(ptrs, vals, mask=mask)]. *)
Definition store (ptrs : list Z) (vals : list float) (mask : list bool)
           (s : state) : state :=
  mkState (scatter (heap s) ptrs vals mask) (trace s ++ [EvStore ptrs]).

(** [tl.max(block, axis=0)] and [tl.sum(block, axis=0)]: reductions of a
    one-dimensional block. *)
Definition max (block : list float) : float := fold_right fmax NInf block.
Definition sum (block : list float) : float :=
  fold_right fadd (Fin 0%R) block.

(** [tl.maximum(a, b)] on scalars and [tl.exp] on a block. *)
Definition maximum (a b : float) : float := fmax a b.
Definition exp (block : list float) : list float := map fexp block.

(** Block-with-scalar arithmetic: [block - s] and [block / s]. *)
Definition sub_scalar (block : list float) (s : float) : list float :=
  map (fun v => fsub v s) block.
Definition div_scalar (block : list float) (s : float) : list float :=
  map (fun v => fdiv v s) block.

(** Block-with-scalar integer arithmetic: [p + block] and
    [block < n]. *)
Definition add_int (p : Z) (block : list Z) : list Z := map (Z.add p) block.
Definition lt_int (block : list Z) (n : Z) : list bool :=
  map (fun c => c <? n) block.

End tl.

(* ================================================================= *)
(** ** Python's [range] and [for] *)

(** [range(start, stop, step)]; a zero step raises [ValueError]. The
    kernels are compiled by [triton.jit], and the source does not show
    what a zero step does there: every theorem below assumes, or derives
    from the launcher's configuration, a step that is not zero. *)
Definition py_range (start stop step : Z) : option (list Z) :=
  if step =? 0 then None
  else
    let len := if 0 <? step
               then (stop - start + step - 1) / step
               else (start - stop - step - 1) / (- step) in
    Some (map (fun i => start + Z.of_nat i * step) (seq 0 (Z.to_nat len))).

(** [for v in range(start, stop, step): acc = body(acc, v)]. *)
Definition for_range {A : Type} (start stop step : Z)
           (body : A -> Z -> A) (init : A) : option A :=
  match py_range start stop step with
  | None => None
  | Some l => Some (fold_left body l init)
  end.

Definition bind {A B : Type} (x : option A) (f : A -> option B) : option B :=
  match x with
  | None => None
  | Some a => f a
  end.

Notation "x <- e ;; k" := (bind e (fun x => k))
  (at level 61, e at next level, right associativity).
Notation "' pat <- e ;; k" := (bind e (fun x => match x with pat => k end))
  (at level 61, pat pattern, e at next level, right associativity).

(* ================================================================= *)
(** ** [softmax_kernel] *)

(** The local variables of one program instance, as the kernel names them,
    and the state it leaves. *)
Record kernel_locals : Type := mkLocals {
  k_row : list float;
  k_max : float;
  k_numerator : list float;
  k_denominator : float;
  k_softmax_output : list float;
  k_final : state
}.

Section Kernels.

Variables (output_ptr input_ptr input_row_stride output_row_stride : Z).
Variable n_cols : Z.
(** [meta['BLOCK_SIZE']] *)
Variable meta_BLOCK_SIZE : Z.
(** [tl.program_id(0)] *)
Variable program_id : Z.

Definition softmax_kernel_locals (s : state) : kernel_locals :=
  let row_idx := program_id in
  let BLOCK_SIZE := meta_BLOCK_SIZE in
  let row_start_ptr := input_ptr + row_idx * input_row_stride in
  let col_offsets := tl.arange 0 BLOCK_SIZE in
  let input_ptrs := tl.add_int row_start_ptr col_offsets in
  let '(row, s) :=
    tl.load input_ptrs (tl.lt_int col_offsets n_cols) NInf s in
  let row_minus_max := tl.sub_scalar row (tl.max row) in
  let numerator := tl.exp row_minus_max in
  let denominator := tl.sum numerator in
  let softmax_output := tl.div_scalar numerator denominator in
  let output_row_start_ptr := output_ptr + row_idx * output_row_stride in
  let output_ptrs := tl.add_int output_row_start_ptr col_offsets in
  let s := tl.store output_ptrs softmax_output
                    (tl.lt_int col_offsets n_cols) s in
  mkLocals row (tl.max row) numerator denominator softmax_output s.

Definition softmax_kernel (s : state) : state :=
  k_final (softmax_kernel_locals s).

(* --------------------------------------------------------------- *)
(** ** [softmax_kernel_big_row] *)

(** The variables the three loops carry. *)
Record big_row_vars : Type := mkVars {
  v_row : list float;
  v_tl_max : float;
  v_tl_sum : float;
  v_state : state
}.

Record big_row_locals : Type := mkBigLocals {
  b_tl_max : float;
  b_tl_sum : float;
  (** the quotient block of the first output tile *)
  b_softmax_output : list float;
  b_final : state
}.

Definition softmax_kernel_big_row_locals (s : state)
  : option big_row_locals :=
  let row_idx := program_id in
  let row_start_ptr := input_ptr + row_idx * input_row_stride in
  let N_BLOCKS := 2 in
  let BLOCK_SIZE := meta_BLOCK_SIZE / 2 in
  let col_offsets_base := tl.arange 0 BLOCK_SIZE in
  let row := tl.zeros BLOCK_SIZE in
  (* all blocks. *)
  let tl_max := NInf in
  v <- for_range 0 (N_BLOCKS * BLOCK_SIZE) BLOCK_SIZE
         (fun v col_start =>
            let col_offsets := tl.add_int col_start col_offsets_base in
            let input_ptrs := tl.add_int row_start_ptr col_offsets in
            let '(row, s) :=
              tl.load input_ptrs (tl.lt_int col_offsets n_cols) NInf
                      (v_state v) in
            mkVars row (tl.maximum (v_tl_max v) (tl.max row))
                   (v_tl_sum v) s)
         (mkVars row tl_max (Fin 0%R) s) ;;
  (* last block *)
  let tl_max := v_tl_max v in
  let tl_sum := tl.sum (tl.exp (tl.sub_scalar (v_row v) tl_max)) in
  (* rest *)
  v <- for_range ((N_BLOCKS - 2) * BLOCK_SIZE) (-1) (- BLOCK_SIZE)
         (fun v col_start =>
            let col_offsets := tl.add_int col_start col_offsets_base in
            let input_ptrs := tl.add_int row_start_ptr col_offsets in
            let '(row, s) :=
              tl.load input_ptrs (tl.lt_int col_offsets n_cols) NInf
                      (v_state v) in
            mkVars row (v_tl_max v)
                   (fadd (v_tl_sum v)
                         (tl.sum (tl.exp (tl.sub_scalar row (v_tl_max v)))))
                   s)
         (mkVars (v_row v) tl_max tl_sum (v_state v)) ;;
  let tl_sum := v_tl_sum v in
  let output_row_start_ptr := output_ptr + row_idx * output_row_stride in
  (* col_start == 0 *)
  let col_offsets := col_offsets_base in
  let softmax_output :=
    tl.div_scalar (tl.exp (tl.sub_scalar (v_row v) tl_max)) tl_sum in
  let output_ptrs := tl.add_int output_row_start_ptr col_offsets in
  let s := tl.store output_ptrs softmax_output
                    (tl.lt_int col_offsets n_cols) (v_state v) in
  (* rest *)
  v' <- for_range BLOCK_SIZE (N_BLOCKS * BLOCK_SIZE) BLOCK_SIZE
         (fun v col_start =>
            let col_offsets := tl.add_int col_start col_offsets_base in
            let input_ptrs := tl.add_int row_start_ptr col_offsets in
            let '(row, s) :=
              tl.load input_ptrs (tl.lt_int col_offsets n_cols) NInf
                      (v_state v) in
            let softmax_output :=
              tl.div_scalar (tl.exp (tl.sub_scalar row (v_tl_max v)))
                            (v_tl_sum v) in
            let output_ptrs :=
              tl.add_int output_row_start_ptr col_offsets in
            let s := tl.store output_ptrs softmax_output
                              (tl.lt_int col_offsets n_cols) s in
            mkVars row (v_tl_max v) (v_tl_sum v) s)
         (mkVars (v_row v) tl_max tl_sum s) ;;
  Some (mkBigLocals tl_max tl_sum softmax_output (v_state v')).

Definition softmax_kernel_big_row (s : state) : option state :=
  option_map b_final (softmax_kernel_big_row_locals s).

End Kernels.

(* ================================================================= *)
(** ** The launcher [softmax] *)

(** Modelled from the spec: [triton.next_power_of_2] belongs to the
    [triton] package and is not part of the tutorial file. The spec gives
    its result as the smallest power of two greater than or equal to its
    argument. *)
Definition next_power_of_2 (n : Z) : Z := 2 ^ Z.log2_up n.

(** The kernel [k] the launcher enqueues. *)
Inductive kernel : Type :=
| k_softmax_kernel
| k_softmax_kernel_big_row.

(** What [softmax] passes to the launch: the meta-parameter [BLOCK_SIZE],
    [num_warps] and the kernel. *)
Record launch_config : Type := mkConfig {
  BLOCK_SIZE : Z;
  num_warps : Z;
  k : kernel
}.

Definition choose_num_warps (BLOCK_SIZE : Z) : Z :=
  let num_warps := 4 in
  let num_warps := if 2048 <=? BLOCK_SIZE then 8 else num_warps in
  let num_warps := if 4096 <=? BLOCK_SIZE then 16 else num_warps in
  let num_warps := if 8096 <=? BLOCK_SIZE then 32 else num_warps in
  num_warps.

Definition choose_kernel (BLOCK_SIZE : Z) : kernel :=
  let k := k_softmax_kernel in
  let k := if true && (64 * 1024 <=? BLOCK_SIZE)
           then k_softmax_kernel_big_row else k in
  k.

Definition softmax_config (n_cols : Z) : launch_config :=
  let BLOCK_SIZE := next_power_of_2 n_cols in
  mkConfig BLOCK_SIZE (choose_num_warps BLOCK_SIZE) (choose_kernel BLOCK_SIZE).

(** The size of the blocks the chosen kernel loads, and how many of them
    make up the padded row; [tiles_match_kernel] shows both of the events
    the kernels log. *)
Definition tile_size (c : launch_config) : Z :=
  match k c with
  | k_softmax_kernel => BLOCK_SIZE c
  | k_softmax_kernel_big_row => BLOCK_SIZE c / 2
  end.

Definition tile_count (c : launch_config) : Z :=
  match k c with
  | k_softmax_kernel => 1
  | k_softmax_kernel_big_row => 2
  end.

(** One program instance of the launch [k[(n_rows,)](y, x, x.stride(0),
    y.stride(0), n_cols, num_warps=num_warps, BLOCK_SIZE=BLOCK_SIZE)]. *)
Definition run_instance (c : launch_config)
           (y x x_stride y_stride n_cols row_idx : Z) (s : state)
  : option state :=
  match k c with
  | k_softmax_kernel =>
      Some (softmax_kernel y x x_stride y_stride n_cols (BLOCK_SIZE c)
                           row_idx s)
  | k_softmax_kernel_big_row =>
      softmax_kernel_big_row y x x_stride y_stride n_cols (BLOCK_SIZE c)
                             row_idx s
  end.

(** The grid of [n_rows] instances. They are independent; they are run
    here one after the other, in the order of their program ids. *)
Definition launch (c : launch_config)
           (y x x_stride y_stride n_cols n_rows : Z) (s : state)
  : option state :=
  fold_left (fun acc row_idx =>
               s <- acc ;; run_instance c y x x_stride y_stride n_cols
                                        row_idx s)
            (tl.arange 0 n_rows) (Some s).

(** [softmax(x)] for an [n_rows] by [n_cols] tensor at address [x], with
    the output tensor [y] that [torch.empty_like] allocated. *)
Definition softmax (y x x_stride y_stride n_rows n_cols : Z) (s : state)
  : option state :=
  launch (softmax_config n_cols) y x x_stride y_stride n_cols n_rows s.

(* ================================================================= *)
(** ** The reference: softmax of a row of real numbers *)

(** The maximum of a non-empty row. *)
Fixpoint row_max (xs : list R) : R :=
  match xs with
  | [] => 0%R
  | x :: nil => x
  | x :: t => Rmax x (row_max t)
  end.

Definition Rsum (xs : list R) : R := fold_right Rplus 0%R xs.

(** The sum of [exp (x - M)] over the row. *)
Definition sum_exp (xs : list R) (M : R) : R :=
  Rsum (map (fun x => exp (x - M)) xs).

(** [exp (x[c] - rowmax) / sum over c' of exp (x[c'] - rowmax)]. *)
Definition softmax_ref (xs : list R) (c : nat) : R :=
  (exp (nth c xs 0 - row_max xs) / sum_exp xs (row_max xs))%R.

(** The row [xs] lies in memory [m] from address [base] on. *)
Definition row_data (m : mem) (base : Z) (xs : list R) : Prop :=
  forall j, (j < length xs)%nat ->
            m (base + Z.of_nat j) = Fin (nth j xs 0%R).

(** The address of column [c] of row [r] of a tensor. *)
Definition addr (ptr stride r : Z) (c : nat) : Z :=
  ptr + r * stride + Z.of_nat c.

(** A block of [B] values: the reals [ys], then -inf at the masked
    positions. *)
Definition pad (ys : list R) (B : nat) : list float :=
  map Fin ys ++ repeat NInf (B - length ys).

(** The pointers of the block of [B] columns that starts at column
    [col_start] of the row at [row_start]. *)
Definition block_ptrs (row_start col_start B : Z) : list Z :=
  tl.add_int row_start (tl.add_int col_start (tl.arange 0 B)).

(** The block a masked load of [B] columns from column [col_start] on
    reads from memory [m]. *)
Definition load_block (m : mem) (row_start col_start B n_cols : Z)
  : list float :=
  tl.gather m (block_ptrs row_start col_start B)
            (tl.lt_int (tl.add_int col_start (tl.arange 0 B)) n_cols) NInf.

(** The events of one run of [softmax_kernel_big_row], phase by phase:
    the maximum over blocks 0 and 1, the sum over block 1 (still on chip)
    and block 0, the output of block 0 (still on chip) and block 1. *)
Definition big_row_events (in_row out_row B : Z) : list event :=
  [EvLoad (block_ptrs in_row 0 B); EvLoad (block_ptrs in_row B B)]
    ++ [EvLoad (block_ptrs in_row 0 B)]
    ++ [EvStore (block_ptrs out_row 0 B);
        EvLoad (block_ptrs in_row B B);
        EvStore (block_ptrs out_row B B)].

(** The addresses of the in-range columns of row [r] of the tensor at
    [ptr]. *)
Definition in_row_range (ptr stride r n_cols a : Z) : Prop :=
  exists c, 0 <= c < n_cols /\ a = ptr + r * stride + c.

(** The matrix [rows] lies in memory [m]: row [r] from address
    [x + r * x_stride] on. *)
Definition matrix_data (m : mem) (x x_stride : Z) (rows : list (list R))
  : Prop :=
  forall r, (r < length rows)%nat ->
            row_data m (x + Z.of_nat r * x_stride) (nth r rows []).

(* ================================================================= *)
(** ** Rows of floats, written rows and launch orders *)

(** The whole output row of the reference. *)
Definition softmax_row (xs : list R) : list R :=
  map (softmax_ref xs) (seq 0 (length xs)).

(** Row [r] of the tensor at [ptr] holds the finite values [ps]. *)
Definition row_written (m : mem) (ptr stride r : Z) (ps : list R) : Prop :=
  forall c, (c < length ps)%nat ->
            m (addr ptr stride r c) = Fin (nth c ps 0%R).

(** The row of floats [fs], finite or not, lies in memory [m] from
    address [base] on. *)
Definition float_row_data (m : mem) (base : Z) (fs : list float) : Prop :=
  forall j, (j < length fs)%nat -> m (base + Z.of_nat j) = nth j fs NaN.

(** A block of [B] values: the floats [fs], then -inf at the masked
    positions. *)
Definition fpad (fs : list float) (B : nat) : list float :=
  fs ++ repeat NInf (B - length fs).

(** No in-range column of output row [row_idx] has the address of an
    in-range column of input row [row_idx]. *)
Definition no_overlap (output_ptr output_row_stride input_ptr
                       input_row_stride row_idx : Z) (n : nat) : Prop :=
  forall c c', (c < n)%nat -> (c' < n)%nat ->
               addr output_ptr output_row_stride row_idx c <>
               addr input_ptr input_row_stride row_idx c'.

(** The instances of a launch run one after the other in the order
    [ids] of their program ids. *)
Definition launch_ids (c : launch_config)
           (y x x_stride y_stride n_cols : Z) (ids : list Z) (s : state)
  : option state :=
  fold_left (fun acc row_idx =>
               s <- acc ;; run_instance c y x x_stride y_stride n_cols
                                        row_idx s)
            ids (Some s).

Definition is_load (e : event) : bool :=
  match e with EvLoad _ => true | EvStore _ => false end.

Definition is_store (e : event) : bool :=
  match e with EvLoad _ => false | EvStore _ => true end.

(** The loads and stores of the instance for row [row_idx]. *)
Definition instance_events (c : launch_config)
           (y x x_stride y_stride row_idx : Z) : list event :=
  match k c with
  | k_softmax_kernel =>
      [EvLoad (block_ptrs (x + row_idx * x_stride) 0 (BLOCK_SIZE c));
       EvStore (block_ptrs (y + row_idx * y_stride) 0 (BLOCK_SIZE c))]
  | k_softmax_kernel_big_row =>
      big_row_events (x + row_idx * x_stride) (y + row_idx * y_stride)
                     (BLOCK_SIZE c / 2)
  end.

(* ================================================================= *)
(** ** [naive_softmax] *)

(** The elements an operation reads from and writes to DRAM, as the
    comments of [naive_softmax] count them. *)
Record traffic : Type := mkTraffic {
  elements_read : nat;
  elements_written : nat
}.

Definition traffic_add (a b : traffic) : traffic :=
  mkTraffic (elements_read a + elements_read b)
            (elements_written a + elements_written b).

(** [x.nelement()] of a two-dimensional tensor, given as its rows. *)
Definition numel (x : list (list float)) : nat :=
  list_sum (map (@length float) x).

(** The maximum of torch: a NaN operand yields NaN. *)
Definition torch_max2 (a b : float) : float :=
  match a, b with
  | NaN, _ | _, NaN => NaN
  | _, _ => fmax a b
  end.

(** The maximum of one row; torch raises on a row of no columns. *)
Fixpoint torch_row_max (row : list float) : option float :=
  match row with
  | [] => None
  | v :: nil => Some v
  | v :: t => option_map (torch_max2 v) (torch_row_max t)
  end.

(** [x.max(dim=1)[0]] *)
Fixpoint torch_max_dim1 (x : list (list float)) : option (list float) :=
  match x with
  | [] => Some []
  | row :: t =>
      m <- torch_row_max row ;;
      ms <- torch_max_dim1 t ;;
      Some (m :: ms)
  end.

(** [x - v[:, None]] and [x / v[:, None]] *)
Definition torch_sub_col (x : list (list float)) (v : list float)
  : list (list float) :=
  map (fun rm => map (fun a => fsub a (snd rm)) (fst rm)) (combine x v).

Definition torch_div_col (x : list (list float)) (v : list float)
  : list (list float) :=
  map (fun rm => map (fun a => fdiv a (snd rm)) (fst rm)) (combine x v).

(** [torch.exp(x)] and [x.sum(dim=1)] *)
Definition torch_exp (x : list (list float)) : list (list float) :=
  map (map fexp) x.

Definition torch_sum_dim1 (x : list (list float)) : list float :=
  map (fold_right fadd (Fin 0%R)) x.

(** [naive_softmax], with the traffic its comments attribute to each
    line. *)
Definition naive_softmax_traced (x : list (list float))
  : option (list (list float) * traffic) :=
  (* read  MN elements ; write M  elements *)
  x_max <- torch_max_dim1 x ;;
  let t1 := mkTraffic (numel x) (length x_max) in
  (* read MN + M elements ; write MN elements *)
  let z := torch_sub_col x x_max in
  let t2 := mkTraffic (numel x + length x_max) (numel z) in
  (* read  MN elements ; write MN elements *)
  let numerator := torch_exp z in
  let t3 := mkTraffic (numel z) (numel numerator) in
  (* read  MN elements ; write M  elements *)
  let denominator := torch_sum_dim1 numerator in
  let t4 := mkTraffic (numel numerator) (length denominator) in
  (* read MN + M elements ; write MN elements *)
  let ret := torch_div_col numerator denominator in
  let t5 := mkTraffic (numel numerator + length denominator) (numel ret) in
  Some (ret,
        traffic_add t1 (traffic_add t2 (traffic_add t3 (traffic_add t4 t5)))).

Definition naive_softmax (x : list (list float))
  : option (list (list float)) :=
  option_map fst (naive_softmax_traced x).

(* ================================================================= *)
(** ** [benchmark] *)

(** What [triton.testing.do_bench] is asked to time. *)
Inductive workload : Type :=
| w_torch_softmax
| w_softmax
| w_naive_softmax.

Section Benchmark.

(** [triton.testing.do_bench(fn, rep=rep, warmup=warmup)], which returns
    the triple [(ms, min_ms, max_ms)]. *)
Variable do_bench : workload -> Z -> Z -> R * R * R.

(** [gbps = lambda ms: 2 * x.nelement() * x.element_size() * 1e-9
    / (ms * 1e-3)]. Python raises [ZeroDivisionError] when the divisor is
    zero: the theorems below assume positive times. *)
Definition gbps (nelement element_size : Z) (ms : R) : R :=
  (2 * IZR nelement * IZR element_size * 1e-9 / (ms * 1e-3))%R.

(** [benchmark(M, N, provider)]: [x] has [M * N] elements of four bytes.
    With a provider that none of the three tests matches, [ms] is
    unbound at the [return] and Python raises. *)
Definition benchmark (M N : Z) (provider : string)
  : option (R * R * R) :=
  let nelement := M * N in
  let element_size := 4 in
  let t := None in
  let t := if String.eqb provider "torch-native"
           then Some (do_bench w_torch_softmax 100 25) else t in
  let t := if String.eqb provider "triton"
           then Some (do_bench w_softmax 100 25) else t in
  let t := if String.eqb provider "torch-jit"
           then Some (do_bench w_naive_softmax 1 1) else t in
  match t with
  | None => None
  | Some (ms, min_ms, max_ms) =>
      Some (gbps nelement element_size ms,
            gbps nelement element_size max_ms,
            gbps nelement element_size min_ms)
  end.

End Benchmark.


(* ================================================================= *)
(** ** Two concrete memories *)

(** A memory that holds the value one at every address, with an empty
    event log; every row read from it is a row of ones. *)
Definition ones_state : state := mkState (fun _ => Fin 1%R) [].

(** A memory that holds ones at the addresses below 3 and sevens from
    address 3 on: as a row of three columns at address 0, it differs from
    [ones_state] exactly at the columns from N = 3 on. *)
Definition sevens_state : state :=
  mkState (fun a => if a <? 3 then Fin 1%R else Fin 7%R) [].

(** A memory that holds +inf at every address. *)
Definition inf_state : state := mkState (fun _ => PInf) [].

(* ================================================================= *)
(** ** Blocks of pointers and masked loads *)

Lemma add_int_arange (base cs B : Z) :
  0 <= cs ->
  tl.add_int base (tl.add_int cs (tl.arange 0 B)) =
  map (fun i => base + Z.of_nat i) (seq (Z.to_nat cs) (Z.to_nat B)).
Proof.
  intros Hcs. unfold tl.add_int, tl.arange. rewrite Z.sub_0_r, !map_map.
  rewrite <- (Nat.add_0_l (Z.to_nat cs)) at 1.
  generalize 0%nat as k. induction (Z.to_nat B) as [|b IH]; intros k; simpl.
  - reflexivity.
  - f_equal; [lia|]. apply (IH (S k)).
Qed.

Lemma add_int_arange0 (base B : Z) :
  tl.add_int base (tl.arange 0 B) =
  map (fun i => base + Z.of_nat i) (seq 0 (Z.to_nat B)).
Proof.
  unfold tl.add_int, tl.arange. rewrite Z.sub_0_r, map_map.
  apply map_ext. intros i. lia.
Qed.

Lemma lt_int_arange (cs B n : Z) :
  0 <= cs ->
  tl.lt_int (tl.add_int cs (tl.arange 0 B)) n =
  map (fun i => Z.of_nat i <? n) (seq (Z.to_nat cs) (Z.to_nat B)).
Proof.
  intros Hcs. unfold tl.lt_int, tl.add_int, tl.arange.
  rewrite Z.sub_0_r, !map_map.
  rewrite <- (Nat.add_0_l (Z.to_nat cs)) at 1.
  generalize 0%nat as k. induction (Z.to_nat B) as [|b IH]; intros k; simpl.
  - reflexivity.
  - f_equal; [f_equal; lia|]. apply (IH (S k)).
Qed.

Lemma lt_int_arange0 (B n : Z) :
  tl.lt_int (tl.arange 0 B) n =
  map (fun i => Z.of_nat i <? n) (seq 0 (Z.to_nat B)).
Proof.
  unfold tl.lt_int, tl.arange. rewrite Z.sub_0_r, map_map.
  apply map_ext. intros i. f_equal.
Qed.

Lemma skipn_cons_nth {A : Type} (d : A) (l : list A) (o : nat) :
  (o < length l)%nat -> skipn o l = nth o l d :: skipn (S o) l.
Proof.
  revert l. induction o as [|o IH]; intros [|a l] H; simpl in *; try lia.
  - reflexivity.
  - apply IH. lia.
Qed.

(** A masked load of [b] consecutive columns from column [o] on yields
    the row's elements there, padded with -inf. *)
Lemma gather_block (m : mem) (base : Z) (xs : list R) (b o : nat) :
  row_data m base xs ->
  tl.gather m (map (fun i => base + Z.of_nat i) (seq o b))
            (map (fun i => Z.of_nat i <? Z.of_nat (length xs)) (seq o b))
            NInf
  = pad (firstn b (skipn o xs)) b.
Proof.
  intros Hrow. revert o. induction b as [|b IH]; intros o.
  - reflexivity.
  - simpl seq. simpl map. simpl tl.gather. rewrite IH.
    destruct (Z.ltb_spec (Z.of_nat o) (Z.of_nat (length xs))) as [Hlt|Hge].
    + rewrite (skipn_cons_nth 0%R xs o) by lia. simpl firstn.
      unfold pad. simpl. rewrite Hrow by lia. reflexivity.
    + rewrite (skipn_all2 xs (n:=o)) by lia.
      rewrite (skipn_all2 xs (n:=S o)) by lia.
      rewrite !firstn_nil. unfold pad. simpl. rewrite Nat.sub_0_r.
      reflexivity.
Qed.

(* ================================================================= *)
(** ** Reductions of a padded block *)

Lemma max_repeat_NInf (k : nat) : tl.max (repeat NInf k) = NInf.
Proof.
  unfold tl.max. induction k as [|k IH]; simpl; [|rewrite IH]; reflexivity.
Qed.

Lemma max_pad (ys : list R) (B : nat) :
  tl.max (pad ys B) = tl.max (map Fin ys).
Proof.
  unfold pad, tl.max. rewrite fold_right_app.
  fold (tl.max (repeat NInf (B - length ys))). rewrite max_repeat_NInf.
  reflexivity.
Qed.

Lemma max_Fin (ys : list R) :
  ys <> [] -> tl.max (map Fin ys) = Fin (row_max ys).
Proof.
  induction ys as [|y t IH]; intros Hne; [congruence|].
  destruct t as [|z t].
  - reflexivity.
  - change (tl.max (map Fin (y :: z :: t)))
      with (fmax (Fin y) (tl.max (map Fin (z :: t)))).
    rewrite IH by discriminate. reflexivity.
Qed.

Lemma max_Fin_cases (ys : list R) :
  tl.max (map Fin ys) = NInf \/ exists r, tl.max (map Fin ys) = Fin r.
Proof.
  destruct ys as [|y t]; [left; reflexivity|].
  right. exists (row_max (y :: t)). apply max_Fin. discriminate.
Qed.

Lemma max_Fin_app (ys zs : list R) :
  fmax (tl.max (map Fin ys)) (tl.max (map Fin zs)) =
  tl.max (map Fin (ys ++ zs)).
Proof.
  induction ys as [|y t IH].
  - simpl. destruct (max_Fin_cases zs) as [H|[r H]]; rewrite H; reflexivity.
  - change (tl.max (map Fin ((y :: t) ++ zs)))
      with (fmax (Fin y) (tl.max (map Fin (t ++ zs)))).
    change (tl.max (map Fin (y :: t)))
      with (fmax (Fin y) (tl.max (map Fin t))).
    rewrite <- IH.
    destruct (max_Fin_cases t) as [Ht|[r Ht]],
             (max_Fin_cases zs) as [Hz|[r' Hz]]; rewrite Ht, Hz; simpl;
      try reflexivity.
    f_equal. symmetry. apply Rmax_assoc.
Qed.

Lemma Rsum_app (xs ys : list R) : Rsum (xs ++ ys) = (Rsum xs + Rsum ys)%R.
Proof.
  induction xs as [|x t IH]; simpl; [lra|]. rewrite IH. lra.
Qed.

Lemma sum_exp_app (xs ys : list R) (M : R) :
  sum_exp (xs ++ ys) M = (sum_exp xs M + sum_exp ys M)%R.
Proof. unfold sum_exp. rewrite map_app. apply Rsum_app. Qed.

Lemma sum_exp_pos (xs : list R) (M : R) :
  xs <> [] -> (0 < sum_exp xs M)%R.
Proof.
  intros Hne. destruct xs as [|x t]; [congruence|].
  unfold sum_exp. simpl.
  assert (H0 : (0 <= Rsum (map (fun x0 => exp (x0 - M)) t))%R).
  { clear. induction t as [|y t IH]; simpl; [lra|].
    pose proof (exp_pos (y - M)). lra. }
  pose proof (exp_pos (x - M)). lra.
Qed.

(** The numerators of a padded block: -inf gives [exp (-inf) = 0]. *)
Lemma exp_sub_pad (ys : list R) (B : nat) (M : R) :
  tl.exp (tl.sub_scalar (pad ys B) (Fin M)) =
  map (fun y => Fin (exp (y - M))) ys ++ repeat (Fin 0%R) (B - length ys).
Proof.
  unfold tl.exp, tl.sub_scalar, pad. rewrite !map_app, !map_map.
  f_equal. induction (B - length ys)%nat as [|k IH]; simpl; congruence.
Qed.

Lemma sum_numerators (ys : list R) (k : nat) (M : R) :
  tl.sum (map (fun y => Fin (exp (y - M))) ys ++ repeat (Fin 0%R) k) =
  Fin (sum_exp ys M).
Proof.
  unfold tl.sum. rewrite fold_right_app.
  assert (Hz : fold_right fadd (Fin 0%R) (repeat (Fin 0%R) k) = Fin 0%R).
  { induction k as [|k IH]; simpl; [reflexivity|]. rewrite IH. simpl.
    f_equal. lra. }
  rewrite Hz. unfold sum_exp.
  induction ys as [|y t IH]; simpl; [reflexivity|]. rewrite IH. reflexivity.
Qed.

Lemma div_numerators (ys : list R) (k : nat) (M S : R) :
  S <> 0%R ->
  tl.div_scalar
    (map (fun y => Fin (exp (y - M))) ys ++ repeat (Fin 0%R) k) (Fin S) =
  map (fun y => Fin (exp (y - M) / S)) ys ++ repeat (Fin (0 / S)) k.
Proof.
  intros HS. unfold tl.div_scalar. rewrite map_app, map_map. f_equal.
  - apply map_ext. intros y. simpl. destruct (Req_dec_T S 0); [tauto|].
    reflexivity.
  - induction k as [|k IH]; simpl; [reflexivity|]. rewrite IH.
    destruct (Req_dec_T S 0); [tauto|]. reflexivity.
Qed.

(* ================================================================= *)
(** ** Masked stores *)

(** A store leaves alone every address that is not an unmasked pointer
    of the block. *)
Lemma scatter_outside (base n a : Z) (b : nat) :
  forall (o : nat) (m : mem) (vals : list float),
    (forall i, (o <= i < o + b)%nat -> Z.of_nat i < n ->
               a <> base + Z.of_nat i) ->
    tl.scatter m (map (fun i => base + Z.of_nat i) (seq o b)) vals
               (map (fun i => Z.of_nat i <? n) (seq o b)) a = m a.
Proof.
  induction b as [|b IH]; intros o m vals Hout; [reflexivity|].
  destruct vals as [|v vs]; [reflexivity|].
  simpl. rewrite IH by (intros i Hi; apply Hout; lia).
  destruct (Z.ltb_spec (Z.of_nat o) n) as [Hlt|Hge]; [|reflexivity].
  unfold upd. destruct (Z.eqb_spec a (base + Z.of_nat o)) as [He|Hne].
  - exfalso. apply (Hout o); [lia|assumption|assumption].
  - reflexivity.
Qed.

(** A store writes its value at every unmasked pointer of the block. *)
Lemma scatter_inside (base n : Z) (d : float) (b : nat) :
  forall (o : nat) (m : mem) (vals : list float) (i : nat),
    length vals = b -> (o <= i < o + b)%nat -> Z.of_nat i < n ->
    tl.scatter m (map (fun i => base + Z.of_nat i) (seq o b)) vals
               (map (fun i => Z.of_nat i <? n) (seq o b))
               (base + Z.of_nat i) = nth (i - o) vals d.
Proof.
  induction b as [|b IH]; intros o m vals i Hlen Hi Hlt; [lia|].
  destruct vals as [|v vs]; [discriminate|].
  simpl in Hlen. simpl tl.scatter. simpl map.
  destruct (Nat.eq_dec i o) as [->|Hne].
  - change (tl.scatter ?m0 (?p :: ?ps) (?v0 :: ?vs0) (?c :: ?cs))
      with (tl.scatter (if c then upd m0 p v0 else m0) ps vs0 cs).
    rewrite scatter_outside by (intros j Hj _; lia).
    rewrite Nat.sub_diag. simpl.
    destruct (Z.ltb_spec (Z.of_nat o) n); [|lia].
    unfold upd. rewrite Z.eqb_refl. reflexivity.
  - change (tl.scatter ?m0 (?p :: ?ps) (?v0 :: ?vs0) (?c :: ?cs))
      with (tl.scatter (if c then upd m0 p v0 else m0) ps vs0 cs).
    rewrite (IH (S o)) by lia.
    replace (i - o)%nat with (S (i - S o)) by lia. reflexivity.
Qed.

Lemma nth_quotients (ys : list R) (k j : nat) (M S : R) :
  (j < length ys)%nat ->
  nth j (map (fun y => Fin (exp (y - M) / S)) ys ++ repeat (Fin (0 / S)) k)
      NaN = Fin (exp (nth j ys 0%R - M) / S).
Proof.
  intros Hj. rewrite app_nth1 by (rewrite length_map; exact Hj).
  rewrite (nth_indep _ NaN (Fin (exp (0 - M) / S)))
    by (rewrite length_map; exact Hj).
  apply (map_nth (fun y => Fin (exp (y - M) / S))).
Qed.

(* ================================================================= *)
(** ** What [softmax_kernel] computes *)

Lemma add_int_0 (l : list Z) : tl.add_int 0 l = l.
Proof.
  unfold tl.add_int. rewrite <- (map_id l) at 2.
  apply map_ext. intros a. reflexivity.
Qed.

Lemma softmax_kernel_heap
      (output_ptr input_ptr input_row_stride output_row_stride : Z)
      (n_cols BS row_idx : Z) (s : state) :
  heap (softmax_kernel output_ptr input_ptr input_row_stride
          output_row_stride n_cols BS row_idx s) =
  tl.scatter (heap s)
    (map (fun i => output_ptr + row_idx * output_row_stride + Z.of_nat i)
         (seq 0 (Z.to_nat BS)))
    (k_softmax_output
       (softmax_kernel_locals output_ptr input_ptr input_row_stride
          output_row_stride n_cols BS row_idx s))
    (map (fun i => Z.of_nat i <? n_cols) (seq 0 (Z.to_nat BS))).
Proof.
  unfold softmax_kernel, softmax_kernel_locals, tl.load, tl.store. simpl.
  rewrite !add_int_arange0, !lt_int_arange0. reflexivity.
Qed.

Lemma softmax_kernel_trace
      (output_ptr input_ptr input_row_stride output_row_stride : Z)
      (n_cols BS row_idx : Z) (s : state) :
  trace (softmax_kernel output_ptr input_ptr input_row_stride
           output_row_stride n_cols BS row_idx s) =
  trace s ++ [EvLoad (block_ptrs (input_ptr + row_idx * input_row_stride)
                                 0 BS);
              EvStore (block_ptrs (output_ptr + row_idx * output_row_stride)
                                  0 BS)].
Proof.
  unfold softmax_kernel, softmax_kernel_locals, tl.load, tl.store,
    block_ptrs.
  simpl. rewrite <- app_assoc. simpl. rewrite add_int_0. reflexivity.
Qed.

(** Every address that is not an in-range column of the output row keeps
    its value. *)
Lemma softmax_kernel_frame
      (output_ptr input_ptr input_row_stride output_row_stride : Z)
      (n_cols BS row_idx : Z) (s : state) (a : Z) :
  (forall c, 0 <= c < n_cols ->
             a <> output_ptr + row_idx * output_row_stride + c) ->
  heap (softmax_kernel output_ptr input_ptr input_row_stride
          output_row_stride n_cols BS row_idx s) a = heap s a.
Proof.
  intros Ha. rewrite softmax_kernel_heap. apply scatter_outside.
  intros i Hi Hlt. apply Ha. lia.
Qed.

Section SingleTile.

Variables (output_ptr input_ptr input_row_stride output_row_stride : Z).
Variables (BS row_idx : Z) (xs : list R) (s : state).

Let n_cols := Z.of_nat (length xs).
Let locals := softmax_kernel_locals output_ptr input_ptr input_row_stride
                output_row_stride n_cols BS row_idx s.

Hypothesis Hrow :
  row_data (heap s) (input_ptr + row_idx * input_row_stride) xs.
Hypothesis Hfit : n_cols <= BS.

Lemma sk_row : k_row locals = pad xs (Z.to_nat BS).
Proof.
  unfold locals, softmax_kernel_locals, tl.load. simpl.
  rewrite add_int_arange0, lt_int_arange0.
  fold n_cols. unfold n_cols. rewrite gather_block by exact Hrow.
  simpl skipn. rewrite firstn_all2 by (subst n_cols; lia). reflexivity.
Qed.

Lemma sk_max : xs <> [] -> k_max locals = Fin (row_max xs).
Proof.
  intros Hne. change (k_max locals) with (tl.max (k_row locals)).
  rewrite sk_row, max_pad. apply max_Fin, Hne.
Qed.

Lemma sk_numerator :
  xs <> [] ->
  k_numerator locals =
  map (fun y => Fin (exp (y - row_max xs))) xs
      ++ repeat (Fin 0%R) (Z.to_nat BS - length xs).
Proof.
  intros Hne.
  change (k_numerator locals)
    with (tl.exp (tl.sub_scalar (k_row locals) (k_max locals))).
  rewrite sk_max by exact Hne. rewrite sk_row. apply exp_sub_pad.
Qed.

Lemma sk_denominator :
  xs <> [] -> k_denominator locals = Fin (sum_exp xs (row_max xs)).
Proof.
  intros Hne.
  change (k_denominator locals) with (tl.sum (k_numerator locals)).
  rewrite sk_numerator by exact Hne. apply sum_numerators.
Qed.

Lemma sk_softmax_output :
  xs <> [] ->
  k_softmax_output locals =
  map (fun y => Fin (exp (y - row_max xs) / sum_exp xs (row_max xs))) xs
      ++ repeat (Fin (0 / sum_exp xs (row_max xs)))
                (Z.to_nat BS - length xs).
Proof.
  intros Hne.
  change (k_softmax_output locals)
    with (tl.div_scalar (k_numerator locals) (k_denominator locals)).
  rewrite sk_denominator, sk_numerator by exact Hne.
  apply div_numerators.
  pose proof (sum_exp_pos xs (row_max xs) Hne). lra.
Qed.

(** The value written at an in-range column. *)
Lemma sk_value (c : nat) :
  (c < length xs)%nat ->
  heap (k_final locals) (addr output_ptr output_row_stride row_idx c) =
  Fin (softmax_ref xs c).
Proof.
  intros Hc. assert (Hne : xs <> []) by (destruct xs; simpl in *; [lia|discriminate]).
  change (k_final locals)
    with (softmax_kernel output_ptr input_ptr input_row_stride
            output_row_stride n_cols BS row_idx s).
  rewrite softmax_kernel_heap. fold locals. unfold addr.
  rewrite (scatter_inside _ _ NaN (Z.to_nat BS) 0).
  - rewrite sk_softmax_output by exact Hne. rewrite Nat.sub_0_r.
    apply nth_quotients, Hc.
  - rewrite sk_softmax_output by exact Hne.
    rewrite length_app, length_map, repeat_length. subst n_cols. lia.
  - subst n_cols. lia.
  - subst n_cols. lia.
Qed.

End SingleTile.

(* ================================================================= *)
(** ** The three loops of [softmax_kernel_big_row] *)

Lemma py_range_all_blocks (B : Z) :
  1 <= B -> py_range 0 (2 * B) B = Some [0; B].
Proof.
  intros HB. unfold py_range.
  destruct (Z.eqb_spec B 0) as [|_]; [lia|].
  destruct (Z.ltb_spec 0 B) as [_|]; [|lia].
  replace ((2 * B - 0 + B - 1) / B) with 2
    by (apply (Z.div_unique _ _ 2 (B - 1)); lia).
  change (Z.to_nat 2) with 2%nat. cbn [seq map].
  repeat f_equal; lia.
Qed.

Lemma py_range_sum_rest (B : Z) :
  1 <= B -> py_range ((2 - 2) * B) (-1) (- B) = Some [0].
Proof.
  intros HB. unfold py_range.
  destruct (Z.eqb_spec (- B) 0) as [|_]; [lia|].
  destruct (Z.ltb_spec 0 (- B)) as [|_]; [lia|].
  replace (((2 - 2) * B - -1 - - B - 1) / - - B) with 1
    by (apply (Z.div_unique _ _ 1 0); lia).
  change (Z.to_nat 1) with 1%nat. cbn [seq map].
  repeat f_equal; lia.
Qed.

Lemma py_range_output_rest (B : Z) :
  1 <= B -> py_range B (2 * B) B = Some [B].
Proof.
  intros HB. unfold py_range.
  destruct (Z.eqb_spec B 0) as [|_]; [lia|].
  destruct (Z.ltb_spec 0 B) as [_|]; [|lia].
  replace ((2 * B - B + B - 1) / B) with 1
    by (apply (Z.div_unique _ _ 1 (B - 1)); lia).
  change (Z.to_nat 1) with 1%nat. cbn [seq map].
  repeat f_equal; lia.
Qed.

Section BigRowUnrolled.

Variables (output_ptr input_ptr input_row_stride output_row_stride : Z).
Variables (n_cols BS row_idx : Z) (s : state).

Let B := BS / 2.
Let in_row := input_ptr + row_idx * input_row_stride.
Let out_row := output_ptr + row_idx * output_row_stride.

(** With a block size of at least one, the loops run over the blocks
    [0; B], [0] and [B]. *)
Lemma big_row_unrolled :
  1 <= B ->
  softmax_kernel_big_row_locals output_ptr input_ptr input_row_stride
    output_row_stride n_cols BS row_idx s =
  let t0 := load_block (heap s) in_row 0 B n_cols in
  let t1 := load_block (heap s) in_row B B n_cols in
  let tl_max := fmax (fmax NInf (tl.max t0)) (tl.max t1) in
  let tl_sum := fadd (tl.sum (tl.exp (tl.sub_scalar t1 tl_max)))
                     (tl.sum (tl.exp (tl.sub_scalar t0 tl_max))) in
  let out0 := tl.div_scalar (tl.exp (tl.sub_scalar t0 tl_max)) tl_sum in
  let h1 := tl.scatter (heap s) (tl.add_int out_row (tl.arange 0 B)) out0
                       (tl.lt_int (tl.arange 0 B) n_cols) in
  let t1' := load_block h1 in_row B B n_cols in
  let out1 := tl.div_scalar (tl.exp (tl.sub_scalar t1' tl_max)) tl_sum in
  let h2 := tl.scatter h1 (block_ptrs out_row B B) out1
              (tl.lt_int (tl.add_int B (tl.arange 0 B)) n_cols) in
  Some (mkBigLocals tl_max tl_sum out0
          (mkState h2
             (trace s ++ [EvLoad (block_ptrs in_row 0 B);
                          EvLoad (block_ptrs in_row B B);
                          EvLoad (block_ptrs in_row 0 B);
                          EvStore (block_ptrs out_row 0 B);
                          EvLoad (block_ptrs in_row B B);
                          EvStore (block_ptrs out_row B B)]))).
Proof.
  intros HB. unfold softmax_kernel_big_row_locals, for_range.
  cbv zeta. fold B in_row out_row.
  rewrite py_range_all_blocks, py_range_sum_rest, py_range_output_rest
    by exact HB.
  unfold tl.load, tl.store, tl.maximum, load_block, block_ptrs.
  cbn [bind fold_left v_row v_tl_max v_tl_sum v_state heap trace].
  rewrite !(add_int_0 (tl.arange 0 B)).
  rewrite <- !app_assoc. reflexivity.
Qed.

End BigRowUnrolled.

Lemma load_block_pad (m : mem) (base cs B : Z) (xs : list R) :
  row_data m base xs -> 0 <= cs ->
  load_block m base cs B (Z.of_nat (length xs)) =
  pad (firstn (Z.to_nat B) (skipn (Z.to_nat cs) xs)) (Z.to_nat B).
Proof.
  intros Hrow Hcs. unfold load_block, block_ptrs.
  rewrite add_int_arange, lt_int_arange by exact Hcs.
  apply gather_block, Hrow.
Qed.

Lemma quotients_length (ys : list R) (b : nat) (M S : R) :
  (length ys <= b)%nat ->
  length (map (fun y => Fin (exp (y - M) / S)) ys
            ++ repeat (Fin (0 / S)) (b - length ys)) = b.
Proof.
  intros H. rewrite length_app, length_map, repeat_length. lia.
Qed.

(** Every address that is not an in-range column of the output row keeps
    its value through [softmax_kernel_big_row]. *)
Lemma softmax_kernel_big_row_frame
      (output_ptr input_ptr input_row_stride output_row_stride : Z)
      (n_cols BS row_idx : Z) (s s' : state) (a : Z) :
  1 <= BS / 2 ->
  softmax_kernel_big_row output_ptr input_ptr input_row_stride
    output_row_stride n_cols BS row_idx s = Some s' ->
  (forall c, 0 <= c < n_cols ->
             a <> output_ptr + row_idx * output_row_stride + c) ->
  heap s' a = heap s a.
Proof.
  intros HB Hrun Ha. unfold softmax_kernel_big_row in Hrun.
  rewrite big_row_unrolled in Hrun by exact HB.
  cbv zeta in Hrun. simpl in Hrun. injection Hrun as <-. simpl.
  unfold block_ptrs. rewrite add_int_arange by lia.
  rewrite lt_int_arange by lia.
  rewrite scatter_outside by (intros i Hi Hlt; apply Ha; lia).
  rewrite add_int_arange0, lt_int_arange0.
  apply scatter_outside. intros i Hi Hlt. apply Ha. lia.
Qed.

Lemma softmax_kernel_big_row_trace
      (output_ptr input_ptr input_row_stride output_row_stride : Z)
      (n_cols BS row_idx : Z) (s : state) :
  1 <= BS / 2 ->
  exists s',
    softmax_kernel_big_row output_ptr input_ptr input_row_stride
      output_row_stride n_cols BS row_idx s = Some s' /\
    let B := BS / 2 in
    let in_row := input_ptr + row_idx * input_row_stride in
    let out_row := output_ptr + row_idx * output_row_stride in
    trace s' = trace s ++ [EvLoad (block_ptrs in_row 0 B);
                           EvLoad (block_ptrs in_row B B);
                           EvLoad (block_ptrs in_row 0 B);
                           EvStore (block_ptrs out_row 0 B);
                           EvLoad (block_ptrs in_row B B);
                           EvStore (block_ptrs out_row B B)].
Proof.
  intros HB. unfold softmax_kernel_big_row.
  rewrite big_row_unrolled by exact HB. cbv zeta. simpl option_map.
  eexists. split; [reflexivity|]. reflexivity.
Qed.

(* ================================================================= *)
(** ** What [softmax_kernel_big_row] computes *)

Section BigRow.

Variables (output_ptr input_ptr input_row_stride output_row_stride : Z).
Variables (BS row_idx : Z) (xs : list R) (s : state).

Let n_cols := Z.of_nat (length xs).
Let B := BS / 2.
Let b := Z.to_nat B.
Let in_row := input_ptr + row_idx * input_row_stride.
Let out_row := output_ptr + row_idx * output_row_stride.
Let M := row_max xs.
Let S := sum_exp xs M.

Hypothesis HB : 1 <= B.
Hypothesis Hfit : n_cols <= 2 * B.
Hypothesis Hne : xs <> [].
Hypothesis Hrow : row_data (heap s) in_row xs.
(** The output row does not overlap the input row. *)
Hypothesis Hdisj :
  forall c c', (c < length xs)%nat -> (c' < length xs)%nat ->
               addr output_ptr output_row_stride row_idx c <>
               addr input_ptr input_row_stride row_idx c'.

Let x0 := firstn b xs.
Let x1 := skipn b xs.
Let quot (ys : list R) : list float :=
  map (fun y => Fin (exp (y - M) / S)) ys
      ++ repeat (Fin (0 / S)) (b - length ys).
Let h1 := tl.scatter (heap s)
            (map (fun i => out_row + Z.of_nat i) (seq 0 b)) (quot x0)
            (map (fun i => Z.of_nat i <? n_cols) (seq 0 b)).
Let h2 := tl.scatter h1
            (map (fun i => out_row + Z.of_nat i) (seq b b)) (quot x1)
            (map (fun i => Z.of_nat i <? n_cols) (seq b b)).

Lemma br_split : x0 ++ x1 = xs.
Proof. apply firstn_skipn. Qed.

Lemma br_len1 : (length x1 <= b)%nat.
Proof. unfold x1. rewrite length_skipn. subst n_cols b. lia. Qed.

Lemma br_len0 : (length x0 <= b)%nat.
Proof. unfold x0. rewrite length_firstn. lia. Qed.

Lemma br_tile0 (m : mem) :
  row_data m in_row xs -> load_block m in_row 0 B n_cols = pad x0 b.
Proof.
  intros H. unfold n_cols. rewrite load_block_pad by (trivial; lia).
  reflexivity.
Qed.

Lemma br_tile1 (m : mem) :
  row_data m in_row xs -> load_block m in_row B B n_cols = pad x1 b.
Proof.
  intros H. unfold n_cols. rewrite load_block_pad by (trivial; lia).
  fold b. rewrite firstn_all2 by apply br_len1. reflexivity.
Qed.

Lemma br_max :
  fmax (fmax NInf (tl.max (pad x0 b))) (tl.max (pad x1 b)) = Fin M.
Proof.
  rewrite !max_pad.
  change NInf with (tl.max (map Fin [])) at 1.
  rewrite max_Fin_app. simpl app. rewrite max_Fin_app, br_split.
  apply max_Fin, Hne.
Qed.

Lemma br_sum :
  fadd (tl.sum (tl.exp (tl.sub_scalar (pad x1 b) (Fin M))))
       (tl.sum (tl.exp (tl.sub_scalar (pad x0 b) (Fin M)))) = Fin S.
Proof.
  rewrite !exp_sub_pad, !sum_numerators. simpl. f_equal.
  unfold S.
  replace (sum_exp xs M) with (sum_exp (x0 ++ x1) M)
    by (rewrite br_split; reflexivity).
  rewrite sum_exp_app. lra.
Qed.

Lemma br_S_neq_0 : S <> 0%R.
Proof. pose proof (sum_exp_pos xs M Hne). unfold S. lra. Qed.

Lemma br_quot (ys : list R) :
  tl.div_scalar (tl.exp (tl.sub_scalar (pad ys b) (Fin M))) (Fin S) =
  quot ys.
Proof. rewrite exp_sub_pad. apply div_numerators, br_S_neq_0. Qed.

(** The first store does not touch the input row. *)
Lemma br_row_h1 : row_data h1 in_row xs.
Proof.
  intros j Hj. unfold h1. rewrite scatter_outside; [apply Hrow, Hj|].
  intros i Hi Hlt He.
  apply (Hdisj i j); [subst n_cols; lia|exact Hj|].
  unfold addr. fold in_row out_row. lia.
Qed.

Lemma br_locals :
  softmax_kernel_big_row_locals output_ptr input_ptr input_row_stride
    output_row_stride n_cols BS row_idx s =
  Some (mkBigLocals (Fin M) (Fin S) (quot x0)
          (mkState h2
             (trace s ++ [EvLoad (block_ptrs in_row 0 B);
                          EvLoad (block_ptrs in_row B B);
                          EvLoad (block_ptrs in_row 0 B);
                          EvStore (block_ptrs out_row 0 B);
                          EvLoad (block_ptrs in_row B B);
                          EvStore (block_ptrs out_row B B)]))).
Proof.
  rewrite big_row_unrolled by exact HB. cbv zeta.
  fold B in_row out_row.
  rewrite (br_tile0 (heap s)), (br_tile1 (heap s)) by exact Hrow.
  rewrite br_max, br_sum, !br_quot.
  rewrite add_int_arange0, lt_int_arange0. fold b. fold h1.
  rewrite (br_tile1 h1) by exact br_row_h1. rewrite br_quot.
  unfold block_ptrs at 1. rewrite add_int_arange, lt_int_arange by lia.
  fold b. fold h2. reflexivity.
Qed.

Lemma br_value (c : nat) :
  (c < length xs)%nat ->
  h2 (addr output_ptr output_row_stride row_idx c) = Fin (softmax_ref xs c).
Proof.
  intros Hc. unfold addr. fold out_row. unfold softmax_ref. fold M S.
  destruct (Nat.lt_ge_cases c b) as [Hlt|Hge].
  - unfold h2. rewrite scatter_outside by (intros i Hi _; lia).
    unfold h1. rewrite (scatter_inside _ _ NaN b 0).
    + rewrite Nat.sub_0_r. unfold quot. rewrite nth_quotients.
      * unfold x0. rewrite nth_firstn.
        destruct (Nat.ltb_spec c b); [reflexivity|lia].
      * unfold x0. rewrite length_firstn. lia.
    + apply quotients_length, br_len0.
    + lia.
    + subst n_cols. lia.
  - unfold h2. rewrite (scatter_inside _ _ NaN b b).
    + unfold quot. rewrite nth_quotients.
      * unfold x1. rewrite nth_skipn.
        replace (b + (c - b))%nat with c by lia. reflexivity.
      * unfold x1. rewrite length_skipn. lia.
    + apply quotients_length, br_len1.
    + subst n_cols b. lia.
    + subst n_cols. lia.
Qed.

(** The kernel returns, with the row maximum, the sum of exponentials and
    the normalised values at the in-range columns. *)
Lemma br_result :
  exists loc,
    softmax_kernel_big_row_locals output_ptr input_ptr input_row_stride
      output_row_stride n_cols BS row_idx s = Some loc /\
    b_tl_max loc = Fin (row_max xs) /\
    b_tl_sum loc = Fin (sum_exp xs (row_max xs)) /\
    forall c, (c < length xs)%nat ->
              heap (b_final loc)
                   (addr output_ptr output_row_stride row_idx c) =
              Fin (softmax_ref xs c).
Proof.
  eexists. split; [apply br_locals|].
  split; [reflexivity|]. split; [reflexivity|].
  intros c Hc. apply br_value, Hc.
Qed.

End BigRow.

Lemma big_row_value
      (output_ptr input_ptr input_row_stride output_row_stride : Z)
      (BS row_idx : Z) (xs : list R) (s : state) :
  1 <= BS / 2 ->
  Z.of_nat (length xs) <= 2 * (BS / 2) ->
  xs <> [] ->
  row_data (heap s) (input_ptr + row_idx * input_row_stride) xs ->
  (forall c c', (c < length xs)%nat -> (c' < length xs)%nat ->
                addr output_ptr output_row_stride row_idx c <>
                addr input_ptr input_row_stride row_idx c') ->
  exists s',
    softmax_kernel_big_row output_ptr input_ptr input_row_stride
      output_row_stride (Z.of_nat (length xs)) BS row_idx s = Some s' /\
    forall c, (c < length xs)%nat ->
              heap s' (addr output_ptr output_row_stride row_idx c) =
              Fin (softmax_ref xs c).
Proof.
  intros HB Hfit Hne Hrow Hdisj.
  destruct (br_result output_ptr input_ptr input_row_stride
              output_row_stride BS row_idx xs s HB Hfit Hne Hrow Hdisj)
    as (loc & Hloc & _ & _ & Hval).
  exists (b_final loc). unfold softmax_kernel_big_row. rewrite Hloc.
  split; [reflexivity|exact Hval].
Qed.

(* ================================================================= *)
(** ** Uniform rows *)

Lemma row_max_repeat (v : R) (n : nat) : row_max (repeat v (S n)) = v.
Proof.
  induction n as [|n IH]; [reflexivity|].
  change (row_max (repeat v (S (S n))))
    with (Rmax v (row_max (repeat v (S n)))).
  rewrite IH. apply Rmax_left. lra.
Qed.

Lemma sum_exp_repeat (v : R) (n : nat) : sum_exp (repeat v n) v = INR n.
Proof.
  unfold sum_exp. induction n as [|n IH]; [reflexivity|].
  rewrite S_INR. simpl repeat. simpl map. simpl Rsum. rewrite IH.
  replace (v - v)%R with 0%R by lra. rewrite exp_0. lra.
Qed.

Lemma softmax_ref_uniform (v : R) (n c : nat) :
  (c < n)%nat -> softmax_ref (repeat v n) c = (1 / INR n)%R.
Proof.
  intros Hc. destruct n as [|n]; [lia|]. unfold softmax_ref.
  rewrite row_max_repeat, sum_exp_repeat.
  rewrite (nth_indep _ 0%R v) by (rewrite repeat_length; exact Hc).
  rewrite nth_repeat. replace (v - v)%R with 0%R by lra.
  rewrite exp_0. reflexivity.
Qed.

(* ================================================================= *)
(** ** A concrete row *)

Lemma ones_row_data (base : Z) (n : nat) :
  row_data (heap ones_state) base (repeat 1%R n).
Proof.
  intros j Hj. rewrite repeat_length in Hj. simpl.
  rewrite (nth_indep _ 0%R 1%R) by (rewrite repeat_length; exact Hj).
  rewrite nth_repeat. reflexivity.
Defined.

Lemma far_apart (n : nat) (c c' : nat) :
  (c < n)%nat -> (c' < n)%nat -> (n <= 100)%nat ->
  addr 100 (Z.of_nat n) 0 c <> addr 0 (Z.of_nat n) 0 c'.
Proof. intros Hc Hc' Hn. unfold addr. lia. Defined.

(* ================================================================= *)
(** ** The value written at each column *)

(** C1. For a row whose N true elements are the finite values [xs], the
    value the program writes at an in-range column [c] is
    [exp (xs[c] - rowmax) / sum over c' < N of exp (xs[c'] - rowmax)],
    with rowmax the maximum of the N true elements: by [softmax_kernel]
    whenever the row fits its block, and by [softmax_kernel_big_row]
    whenever the row fits its two blocks and the output row does not
    overlap the input row. *)
Theorem C1_written_value_is_softmax
        (output_ptr input_ptr input_row_stride output_row_stride : Z)
        (BS row_idx : Z) (xs : list R) (s : state) (c : nat) :
  row_data (heap s) (input_ptr + row_idx * input_row_stride) xs ->
  (c < length xs)%nat ->
  (Z.of_nat (length xs) <= BS ->
   heap (softmax_kernel output_ptr input_ptr input_row_stride
           output_row_stride (Z.of_nat (length xs)) BS row_idx s)
        (addr output_ptr output_row_stride row_idx c) =
   Fin (softmax_ref xs c))
  /\
  (1 <= BS / 2 ->
   Z.of_nat (length xs) <= 2 * (BS / 2) ->
   (forall c c', (c < length xs)%nat -> (c' < length xs)%nat ->
                 addr output_ptr output_row_stride row_idx c <>
                 addr input_ptr input_row_stride row_idx c') ->
   exists s',
     softmax_kernel_big_row output_ptr input_ptr input_row_stride
       output_row_stride (Z.of_nat (length xs)) BS row_idx s = Some s' /\
     heap s' (addr output_ptr output_row_stride row_idx c) =
     Fin (softmax_ref xs c)).
Proof.
  intros Hrow Hc. split.
  - intros Hfit. apply sk_value; assumption.
  - intros HB Hfit Hdisj.
    assert (Hne : xs <> []) by (destruct xs; simpl in Hc; [lia|discriminate]).
    destruct (big_row_value _ _ _ _ _ _ _ _ HB Hfit Hne Hrow Hdisj)
      as (s' & Hrun & Hval).
    exists s'. split; [exact Hrun|]. apply Hval, Hc.
Qed.

Lemma C1_written_value_is_softmax_witness :
  heap (softmax_kernel 100 0 3 3 3 4 0 ones_state) (addr 100 3 0 1) =
  Fin (softmax_ref (repeat 1%R 3) 1)
  /\
  exists s',
    softmax_kernel_big_row 100 0 3 3 3 4 0 ones_state = Some s' /\
    heap s' (addr 100 3 0 1) = Fin (softmax_ref (repeat 1%R 3) 1).
Proof.
  destruct (C1_written_value_is_softmax 100 0 3 3 4 0 (repeat 1%R 3)
              ones_state 1%nat (ones_row_data _ 3))
    as [Hsingle Hmulti].
  - simpl. lia.
  - split.
    + apply Hsingle. simpl. lia.
    + apply Hmulti.
      * cbv. discriminate.
      * simpl. lia.
      * intros c c' Hc Hc'. apply (far_apart 3 c c'); simpl in *; lia.
Defined.

(** C2. Take a row of N >= 1 finite elements [xs] on which both paths
    apply: it fits the single block of [softmax_kernel] and the two
    blocks of [softmax_kernel_big_row], whose output row does not overlap
    its input row. Run the two kernels independently, each on a memory
    and a tensor layout of its own that hold nothing in common but the
    row [xs]: whatever the two memories held at the output rows before,
    [softmax_kernel_big_row] returns, and at every in-range column the
    value it has written is the value [softmax_kernel] has written. *)
Theorem C2_paths_agree
        (output_ptr1 input_ptr1 input_row_stride1 output_row_stride1 : Z)
        (BS1 row_idx1 : Z)
        (output_ptr2 input_ptr2 input_row_stride2 output_row_stride2 : Z)
        (BS2 row_idx2 : Z)
        (xs : list R) (s1 s2 : state) :
  xs <> [] ->
  row_data (heap s1) (input_ptr1 + row_idx1 * input_row_stride1) xs ->
  row_data (heap s2) (input_ptr2 + row_idx2 * input_row_stride2) xs ->
  Z.of_nat (length xs) <= BS1 ->
  1 <= BS2 / 2 ->
  Z.of_nat (length xs) <= 2 * (BS2 / 2) ->
  (forall c c', (c < length xs)%nat -> (c' < length xs)%nat ->
                addr output_ptr2 output_row_stride2 row_idx2 c <>
                addr input_ptr2 input_row_stride2 row_idx2 c') ->
  exists s2',
    softmax_kernel_big_row output_ptr2 input_ptr2 input_row_stride2
      output_row_stride2 (Z.of_nat (length xs)) BS2 row_idx2 s2 = Some s2' /\
    forall c, (c < length xs)%nat ->
      heap s2' (addr output_ptr2 output_row_stride2 row_idx2 c) =
      heap (softmax_kernel output_ptr1 input_ptr1 input_row_stride1
              output_row_stride1 (Z.of_nat (length xs)) BS1 row_idx1 s1)
           (addr output_ptr1 output_row_stride1 row_idx1 c).
Proof.
  intros Hne Hrow1 Hrow2 Hfit1 HB Hfit2 Hdisj.
  destruct (big_row_value _ _ _ _ _ _ _ _ HB Hfit2 Hne Hrow2 Hdisj)
    as (s2' & Hrun & Hval).
  exists s2'. split; [exact Hrun|]. intros c Hc.
  rewrite Hval by exact Hc. symmetry. apply sk_value; assumption.
Qed.

Lemma C2_paths_agree_witness :
  heap sevens_state (addr 200 3 0 0) <> heap ones_state (addr 100 3 0 0) /\
  exists s2',
    softmax_kernel_big_row 200 0 3 3 3 8 0 sevens_state = Some s2' /\
    forall c, (c < 3)%nat ->
      heap s2' (addr 200 3 0 c) =
      heap (softmax_kernel 100 0 3 3 3 4 0 ones_state) (addr 100 3 0 c).
Proof.
  split.
  - simpl. intros H. injection H as H. lra.
  - apply (C2_paths_agree 100 0 3 3 4 0 200 0 3 3 8 0 (repeat 1%R 3)
             ones_state sevens_state).
    + discriminate.
    + apply ones_row_data.
    + intros j Hj. simpl in Hj.
      destruct j as [|[|[|j]]]; [reflexivity|reflexivity|reflexivity|lia].
    + simpl. lia.
    + cbv. discriminate.
    + simpl. lia.
    + intros c c' Hc Hc'. simpl in Hc, Hc'. unfold addr. lia.
Defined.

(** C8. A row whose N >= 1 true elements all equal the same finite value
    [v] gets the value 1/N at every in-range column, from either
    kernel. *)
Theorem C8_uniform_row
        (output_ptr input_ptr input_row_stride output_row_stride : Z)
        (BS row_idx : Z) (v : R) (N : nat) (s : state) (c : nat) :
  row_data (heap s) (input_ptr + row_idx * input_row_stride)
           (repeat v N) ->
  (c < N)%nat ->
  (Z.of_nat N <= BS ->
   heap (softmax_kernel output_ptr input_ptr input_row_stride
           output_row_stride (Z.of_nat N) BS row_idx s)
        (addr output_ptr output_row_stride row_idx c) =
   Fin (1 / INR N))
  /\
  (1 <= BS / 2 ->
   Z.of_nat N <= 2 * (BS / 2) ->
   (forall c c', (c < N)%nat -> (c' < N)%nat ->
                 addr output_ptr output_row_stride row_idx c <>
                 addr input_ptr input_row_stride row_idx c') ->
   exists s',
     softmax_kernel_big_row output_ptr input_ptr input_row_stride
       output_row_stride (Z.of_nat N) BS row_idx s = Some s' /\
     heap s' (addr output_ptr output_row_stride row_idx c) =
     Fin (1 / INR N)).
Proof.
  intros Hrow Hc.
  assert (Hlen : length (repeat v N) = N) by apply repeat_length.
  rewrite <- (softmax_ref_uniform v N c Hc). split.
  - intros Hfit. rewrite <- Hlen at 1. apply sk_value.
    + exact Hrow.
    + rewrite Hlen. exact Hfit.
    + rewrite Hlen. exact Hc.
  - intros HB Hfit Hdisj.
    assert (Hne : repeat v N <> []) by (destruct N; [lia|discriminate]).
    rewrite <- Hlen in Hfit, Hdisj.
    destruct (big_row_value _ _ _ _ _ _ _ _ HB Hfit Hne Hrow Hdisj)
      as (s' & Hrun & Hval).
    exists s'. rewrite Hlen in Hrun. split; [exact Hrun|].
    apply Hval. rewrite Hlen. exact Hc.
Qed.

Lemma C8_uniform_row_witness :
  heap (softmax_kernel 100 0 3 3 3 4 0 ones_state) (addr 100 3 0 2) =
  Fin (1 / INR 3)
  /\
  exists s',
    softmax_kernel_big_row 100 0 3 3 3 4 0 ones_state = Some s' /\
    heap s' (addr 100 3 0 2) = Fin (1 / INR 3).
Proof.
  destruct (C8_uniform_row 100 0 3 3 4 0 1%R 3 ones_state 2
              (ones_row_data _ 3))
    as [Hsingle Hmulti].
  - lia.
  - split.
    + apply Hsingle. simpl. lia.
    + apply Hmulti.
      * cbv. discriminate.
      * simpl. lia.
      * intros c c' Hc Hc'. apply (far_apart 3 c c'); lia.
Defined.

(* ================================================================= *)
(** ** Padding *)

(** C3. Take two memories that hold the same N >= 1 finite elements [xs]
    at the row's in-range columns and anything at all elsewhere, in
    particular at the columns from N on, and two block sizes that both
    fit the row. Then the two runs compute the same maximum, namely the
    maximum of [xs], the same sum of exponentials, namely the sum over
    [xs], and the same value at every in-range column. This holds for
    [softmax_kernel] and for [softmax_kernel_big_row]. *)
Theorem C3_padding_does_not_leak
        (output_ptr input_ptr input_row_stride output_row_stride : Z)
        (row_idx : Z) (xs : list R) (s1 s2 : state) (BS1 BS2 : Z) :
  xs <> [] ->
  row_data (heap s1) (input_ptr + row_idx * input_row_stride) xs ->
  row_data (heap s2) (input_ptr + row_idx * input_row_stride) xs ->
  (Z.of_nat (length xs) <= BS1 -> Z.of_nat (length xs) <= BS2 ->
   let l1 := softmax_kernel_locals output_ptr input_ptr input_row_stride
               output_row_stride (Z.of_nat (length xs)) BS1 row_idx s1 in
   let l2 := softmax_kernel_locals output_ptr input_ptr input_row_stride
               output_row_stride (Z.of_nat (length xs)) BS2 row_idx s2 in
   k_max l1 = Fin (row_max xs) /\ k_max l2 = k_max l1 /\
   k_denominator l1 = Fin (sum_exp xs (row_max xs)) /\
   k_denominator l2 = k_denominator l1 /\
   forall c, (c < length xs)%nat ->
     heap (k_final l2) (addr output_ptr output_row_stride row_idx c) =
     heap (k_final l1) (addr output_ptr output_row_stride row_idx c))
  /\
  (1 <= BS1 / 2 -> 1 <= BS2 / 2 ->
   Z.of_nat (length xs) <= 2 * (BS1 / 2) ->
   Z.of_nat (length xs) <= 2 * (BS2 / 2) ->
   (forall c c', (c < length xs)%nat -> (c' < length xs)%nat ->
                 addr output_ptr output_row_stride row_idx c <>
                 addr input_ptr input_row_stride row_idx c') ->
   exists l1 l2,
     softmax_kernel_big_row_locals output_ptr input_ptr input_row_stride
       output_row_stride (Z.of_nat (length xs)) BS1 row_idx s1 = Some l1 /\
     softmax_kernel_big_row_locals output_ptr input_ptr input_row_stride
       output_row_stride (Z.of_nat (length xs)) BS2 row_idx s2 = Some l2 /\
     b_tl_max l1 = Fin (row_max xs) /\ b_tl_max l2 = b_tl_max l1 /\
     b_tl_sum l1 = Fin (sum_exp xs (row_max xs)) /\
     b_tl_sum l2 = b_tl_sum l1 /\
     forall c, (c < length xs)%nat ->
       heap (b_final l2) (addr output_ptr output_row_stride row_idx c) =
       heap (b_final l1) (addr output_ptr output_row_stride row_idx c)).
Proof.
  intros Hne Hrow1 Hrow2. split.
  - intros Hfit1 Hfit2 l1 l2. subst l1 l2.
    rewrite !sk_max, !sk_denominator by assumption.
    repeat split; try reflexivity.
    intros c Hc. rewrite !sk_value by assumption. reflexivity.
  - intros HB1 HB2 Hfit1 Hfit2 Hdisj.
    destruct (br_result _ _ _ _ _ _ _ _ HB1 Hfit1 Hne Hrow1 Hdisj)
      as (l1 & Hl1 & Hm1 & Hs1 & Hv1).
    destruct (br_result _ _ _ _ _ _ _ _ HB2 Hfit2 Hne Hrow2 Hdisj)
      as (l2 & Hl2 & Hm2 & Hs2 & Hv2).
    exists l1, l2. rewrite Hm1, Hm2, Hs1, Hs2.
    repeat split; try assumption.
    intros c Hc. rewrite Hv1, Hv2 by exact Hc. reflexivity.
Qed.

Lemma sevens_row_data : row_data (heap sevens_state) (0 + 0 * 3)
                                 (repeat 1%R 3).
Proof.
  intros j Hj. simpl in Hj.
  destruct j as [|[|[|j]]]; [reflexivity|reflexivity|reflexivity|lia].
Defined.

Lemma C3_padding_does_not_leak_witness :
  heap sevens_state 3 <> heap ones_state 3 /\
  (let l1 := softmax_kernel_locals 100 0 3 3 3 4 0 ones_state in
   let l2 := softmax_kernel_locals 100 0 3 3 3 8 0 sevens_state in
   k_max l2 = k_max l1 /\ k_denominator l2 = k_denominator l1 /\
   forall c, (c < 3)%nat ->
     heap (k_final l2) (addr 100 3 0 c) =
     heap (k_final l1) (addr 100 3 0 c)) /\
  exists l1 l2,
    softmax_kernel_big_row_locals 100 0 3 3 3 4 0 ones_state = Some l1 /\
    softmax_kernel_big_row_locals 100 0 3 3 3 8 0 sevens_state = Some l2 /\
    b_tl_max l2 = b_tl_max l1 /\ b_tl_sum l2 = b_tl_sum l1 /\
    forall c, (c < 3)%nat ->
      heap (b_final l2) (addr 100 3 0 c) =
      heap (b_final l1) (addr 100 3 0 c).
Proof.
  split.
  - simpl. intros H. injection H as H. lra.
  - destruct (C3_padding_does_not_leak 100 0 3 3 0 (repeat 1%R 3)
                ones_state sevens_state 4 8) as [Hsingle Hmulti].
    + discriminate.
    + apply ones_row_data.
    + apply sevens_row_data.
    + split.
      * destruct Hsingle as (_ & Hm & _ & Hd & Hv); [simpl; lia ..|].
        intros l1 l2. repeat split; assumption.
      * destruct Hmulti as (l1 & l2 & H1 & H2 & _ & Hm & _ & Hs & Hv).
        { cbv. discriminate. }
        { cbv. discriminate. }
        { simpl. lia. }
        { simpl. lia. }
        { intros c c' Hc Hc'. apply (far_apart 3 c c'); simpl in *; lia. }
        exists l1, l2. repeat split; assumption.
Defined.

(* ================================================================= *)
(** ** The empty row *)

Lemma row_data_nil (m : mem) (base : Z) : row_data m base [].
Proof. intros j Hj. simpl in Hj. lia. Qed.

Lemma exp_sub_NInf (k : nat) :
  tl.exp (tl.sub_scalar (repeat NInf k) NInf) = repeat NaN k.
Proof.
  unfold tl.exp, tl.sub_scalar. rewrite map_map.
  induction k as [|k IH]; simpl; congruence.
Qed.

Lemma sum_repeat_NaN (k : nat) :
  (0 < k)%nat -> tl.sum (repeat NaN k) = NaN.
Proof. destruct k; [lia|reflexivity]. Qed.

Lemma div_repeat_NaN (k : nat) (d : float) :
  tl.div_scalar (repeat NaN k) d = repeat NaN k.
Proof.
  unfold tl.div_scalar. induction k as [|k IH]; simpl; congruence.
Qed.

Lemma pad_nil (k : nat) : pad [] k = repeat NInf k.
Proof. unfold pad. simpl. rewrite Nat.sub_0_r. reflexivity. Qed.

(** C4 (as the code has it). On the empty row, N = 0, the division is
    not guarded: every loaded position is -inf, the maximum is -inf, the
    shifted values -inf - -inf are NaN, and so are the sum and every
    quotient of the block. The mask of the store is false at every
    position, so none of them is written: memory is left exactly as it
    was, and the kernel returns. This holds for [softmax_kernel] and for
    [softmax_kernel_big_row]. *)
Theorem C4_empty_row_unguarded
        (output_ptr input_ptr input_row_stride output_row_stride : Z)
        (BS row_idx : Z) (s : state) :
  (1 <= BS ->
   let l := softmax_kernel_locals output_ptr input_ptr input_row_stride
              output_row_stride 0 BS row_idx s in
   k_max l = NInf /\ k_denominator l = NaN /\
   k_softmax_output l = repeat NaN (Z.to_nat BS) /\
   forall a, heap (k_final l) a = heap s a)
  /\
  (1 <= BS / 2 ->
   exists l,
     softmax_kernel_big_row_locals output_ptr input_ptr input_row_stride
       output_row_stride 0 BS row_idx s = Some l /\
     b_tl_max l = NInf /\ b_tl_sum l = NaN /\
     b_softmax_output l = repeat NaN (Z.to_nat (BS / 2)) /\
     forall a, heap (b_final l) a = heap s a).
Proof.
  split.
  - intros HBS l.
    pose proof (sk_row output_ptr input_ptr input_row_stride
                  output_row_stride BS row_idx [] s
                  (row_data_nil _ _)) as Hr.
    change (Z.of_nat (length (@nil R))) with 0 in Hr.
    specialize (Hr ltac:(lia)). rewrite pad_nil in Hr. fold l in Hr.
    assert (Hmax : k_max l = NInf).
    { change (k_max l) with (tl.max (k_row l)). rewrite Hr.
      apply max_repeat_NInf. }
    assert (Hnum : k_numerator l = repeat NaN (Z.to_nat BS)).
    { change (k_numerator l)
        with (tl.exp (tl.sub_scalar (k_row l) (k_max l))).
      rewrite Hmax, Hr. apply exp_sub_NInf. }
    assert (Hden : k_denominator l = NaN).
    { change (k_denominator l) with (tl.sum (k_numerator l)).
      rewrite Hnum. apply sum_repeat_NaN. lia. }
    repeat split; try assumption.
    + change (k_softmax_output l)
        with (tl.div_scalar (k_numerator l) (k_denominator l)).
      rewrite Hnum. apply div_repeat_NaN.
    + intros a. apply softmax_kernel_frame. intros c Hc. lia.
  - intros HB.
    assert (Hload : forall m cs, 0 <= cs ->
              load_block m (input_ptr + row_idx * input_row_stride) cs
                         (BS / 2) 0 = repeat NInf (Z.to_nat (BS / 2))).
    { intros m cs Hcs.
      rewrite (load_block_pad m _ cs (BS / 2) [] (row_data_nil _ _) Hcs).
      rewrite skipn_nil, firstn_nil. apply pad_nil. }
    rewrite big_row_unrolled by exact HB. cbv zeta.
    rewrite !Hload by lia. rewrite !max_repeat_NInf.
    change (fmax (fmax NInf NInf) NInf) with NInf.
    rewrite !exp_sub_NInf, !sum_repeat_NaN by lia.
    change (fadd NaN NaN) with NaN. rewrite !div_repeat_NaN.
    eexists. split; [reflexivity|]. simpl.
    repeat split.
    intros a. unfold block_ptrs.
    rewrite add_int_arange, lt_int_arange by lia.
    rewrite scatter_outside by (intros i Hi Hlt; lia).
    rewrite add_int_arange0, lt_int_arange0.
    apply scatter_outside. intros i Hi Hlt. lia.
Qed.

Lemma C4_empty_row_unguarded_witness :
  (let l := softmax_kernel_locals 100 0 0 0 0 1 0 ones_state in
   k_denominator l = NaN /\ k_softmax_output l = [NaN] /\
   forall a, heap (k_final l) a = heap ones_state a)
  /\
  exists l,
    softmax_kernel_big_row_locals 100 0 0 0 0 2 0 ones_state = Some l /\
    b_tl_sum l = NaN /\ b_softmax_output l = [NaN] /\
    forall a, heap (b_final l) a = heap ones_state a.
Proof.
  split.
  - destruct (C4_empty_row_unguarded 100 0 0 0 1 0 ones_state)
      as [Hsingle _].
    destruct Hsingle as (_ & Hd & Ho & Hh); [lia|].
    intros l. repeat split; assumption.
  - destruct (C4_empty_row_unguarded 100 0 0 0 2 0 ones_state)
      as [_ Hmulti].
    destruct Hmulti as (l & Hl & _ & Hs & Ho & Hh); [cbv; discriminate|].
    exists l. repeat split; assumption.
Defined.

(** The claim that the division is guarded on the empty row, so that it
    produces no NaN, fails: with N = 0 and a block of one position, the
    quotient block of [softmax_kernel] holds a NaN. *)
Lemma C4_counterexample :
  ~ (forall v,
        In v (k_softmax_output
                (softmax_kernel_locals 100 0 0 0 0 1 0 ones_state)) ->
        is_nan v = false).
Proof.
  intros H. specialize (H NaN). simpl in H.
  assert (Hf : true = false) by (apply H; left; reflexivity).
  discriminate.
Qed.

(* ================================================================= *)
(** ** Loads and stores per row *)

Lemma block_ptrs_distinct (row_start B : Z) :
  1 <= B -> block_ptrs row_start 0 B <> block_ptrs row_start B B.
Proof.
  intros HB. unfold block_ptrs. rewrite !add_int_arange by lia.
  destruct (Z.to_nat B) as [|b] eqn:Hb; [lia|].
  change (Z.to_nat 0) with 0%nat. simpl. intros H. injection H as H _. lia.
Qed.

Lemma big_row_events_load_bound (in_row out_row B : Z) (ptrs : list Z) :
  1 <= B ->
  (count_occ event_eq_dec (big_row_events in_row out_row B) (EvLoad ptrs)
   <= 2)%nat.
Proof.
  intros HB. pose proof (block_ptrs_distinct in_row B HB) as Hneq.
  unfold big_row_events. cbn [app].
  destruct (list_eq_dec Z.eq_dec (block_ptrs in_row 0 B) ptrs) as [E0|N0];
    destruct (list_eq_dec Z.eq_dec (block_ptrs in_row B B) ptrs)
      as [E1|N1];
    try (exfalso; apply Hneq; congruence);
    repeat first
      [ rewrite count_occ_cons_eq by congruence
      | rewrite count_occ_cons_neq by congruence ];
    simpl; lia.
Qed.

(** C6. [softmax_kernel] executes exactly one load and one store, of the
    row's block. [softmax_kernel_big_row] executes, in this order: the
    loads of blocks 0 and 1 (maximum); the load of block 0 only (sum:
    block 1 is still on chip); the store of block 0 without a load (it is
    still on chip), then the load and the store of block 1. No block is
    loaded more than twice, and blocks 0 and 1 are each loaded exactly
    twice. *)
Theorem C6_loads_and_stores
        (output_ptr input_ptr input_row_stride output_row_stride : Z)
        (n_cols BS row_idx : Z) (s : state) :
  let in_row := input_ptr + row_idx * input_row_stride in
  let out_row := output_ptr + row_idx * output_row_stride in
  trace (softmax_kernel output_ptr input_ptr input_row_stride
           output_row_stride n_cols BS row_idx s) =
  trace s ++ [EvLoad (block_ptrs in_row 0 BS);
              EvStore (block_ptrs out_row 0 BS)]
  /\
  (1 <= BS / 2 ->
   exists s',
     softmax_kernel_big_row output_ptr input_ptr input_row_stride
       output_row_stride n_cols BS row_idx s = Some s' /\
     trace s' = trace s ++ big_row_events in_row out_row (BS / 2) /\
     (forall ptrs,
         count_occ event_eq_dec (big_row_events in_row out_row (BS / 2))
                   (EvLoad ptrs) <= 2)%nat /\
     count_occ event_eq_dec (big_row_events in_row out_row (BS / 2))
               (EvLoad (block_ptrs in_row 0 (BS / 2))) = 2%nat /\
     count_occ event_eq_dec (big_row_events in_row out_row (BS / 2))
               (EvLoad (block_ptrs in_row (BS / 2) (BS / 2))) = 2%nat).
Proof.
  intros in_row out_row. split.
  - apply softmax_kernel_trace.
  - intros HB.
    destruct (softmax_kernel_big_row_trace output_ptr input_ptr
                input_row_stride output_row_stride n_cols BS row_idx s HB)
      as (s' & Hrun & Htr).
    exists s'. split; [exact Hrun|]. split; [exact Htr|].
    pose proof (block_ptrs_distinct in_row (BS / 2) HB) as Hneq.
    split; [intros ptrs; apply big_row_events_load_bound, HB|].
    unfold big_row_events. cbn [app].
    split;
      repeat first
        [ rewrite count_occ_cons_eq by reflexivity
        | rewrite count_occ_cons_neq by congruence ];
      reflexivity.
Qed.

Lemma C6_loads_and_stores_witness :
  exists s',
    softmax_kernel_big_row 100 0 3 3 3 4 0 ones_state = Some s' /\
    trace s' = trace ones_state ++ big_row_events (0 + 0 * 3)
                                                  (100 + 0 * 3) (4 / 2).
Proof.
  destruct (C6_loads_and_stores 100 0 3 3 3 4 0 ones_state) as [_ Hmulti].
  destruct Hmulti as (s' & Hrun & Htr & _); [cbv; discriminate|].
  exists s'. split; assumption.
Defined.

(* ================================================================= *)
(** ** The frame of the store *)

Lemma in_row_range_disjoint (ptr stride n_cols r r' a : Z) :
  n_cols <= stride -> r <> r' ->
  in_row_range ptr stride r n_cols a ->
  ~ in_row_range ptr stride r' n_cols a.
Proof.
  intros Hs Hr (c & Hc & Ha) (c' & Hc' & Ha').
  assert (H : (r - r') * stride = c' - c) by lia.
  assert (Hcases : r - r' <= -1 \/ 1 <= r - r') by lia.
  destruct Hcases; nia.
Qed.

(** C7. A program instance for row [r] changes memory only at the
    in-range columns of row [r] of the output tensor: every other address
    keeps its value (all columns from N on, all other rows, everything
    else), for [softmax_kernel] and for [softmax_kernel_big_row]. When
    the row stride of the output is at least N, the in-range columns of
    two distinct rows share no address, so an instance leaves every other
    row as it was. *)
Theorem C7_store_frame
        (output_ptr input_ptr input_row_stride output_row_stride : Z)
        (n_cols BS row_idx : Z) (s : state) :
  (forall a,
      ~ in_row_range output_ptr output_row_stride row_idx n_cols a ->
      heap (softmax_kernel output_ptr input_ptr input_row_stride
              output_row_stride n_cols BS row_idx s) a = heap s a)
  /\
  (1 <= BS / 2 ->
   exists s',
     softmax_kernel_big_row output_ptr input_ptr input_row_stride
       output_row_stride n_cols BS row_idx s = Some s' /\
     forall a,
       ~ in_row_range output_ptr output_row_stride row_idx n_cols a ->
       heap s' a = heap s a)
  /\
  (n_cols <= output_row_stride ->
   forall r' a,
     r' <> row_idx ->
     in_row_range output_ptr output_row_stride r' n_cols a ->
     ~ in_row_range output_ptr output_row_stride row_idx n_cols a).
Proof.
  split; [|split].
  - intros a Ha. apply softmax_kernel_frame.
    intros c Hc He. apply Ha. exists c. split; assumption.
  - intros HB.
    destruct (softmax_kernel_big_row_trace output_ptr input_ptr
                input_row_stride output_row_stride n_cols BS row_idx s HB)
      as (s' & Hrun & _).
    exists s'. split; [exact Hrun|]. intros a Ha.
    apply (softmax_kernel_big_row_frame _ _ _ _ _ _ _ _ _ _ HB Hrun).
    intros c Hc He. apply Ha. exists c. split; assumption.
  - intros Hs r' a Hr Hin. apply (in_row_range_disjoint _ _ _ r'); assumption.
Qed.

Lemma C7_store_frame_witness :
  (exists s',
      softmax_kernel_big_row 100 0 3 3 3 4 0 ones_state = Some s' /\
      forall a, ~ in_row_range 100 3 0 3 a -> heap s' a = heap ones_state a)
  /\
  ~ in_row_range 100 3 0 3 (100 + 1 * 3 + 0).
Proof.
  destruct (C7_store_frame 100 0 3 3 3 4 0 ones_state)
    as (_ & Hmulti & Hrows).
  split.
  - apply Hmulti. cbv. discriminate.
  - apply (Hrows ltac:(lia) 1).
    + lia.
    + exists 0. lia.
Defined.

(* ================================================================= *)
(** ** The launcher's configuration *)

Lemma next_power_of_2_ge (n : Z) : n <= next_power_of_2 n.
Proof.
  unfold next_power_of_2. destruct (Z.le_gt_cases n 1) as [H|H].
  - rewrite Z.log2_up_eqn0 by exact H. simpl. exact H.
  - apply Z.log2_up_spec. lia.
Qed.

Lemma next_power_of_2_pow2 (n : Z) :
  exists j, 0 <= j /\ next_power_of_2 n = 2 ^ j.
Proof.
  exists (Z.log2_up n). split; [apply Z.log2_up_nonneg|reflexivity].
Qed.

Lemma next_power_of_2_least (n j : Z) :
  0 <= j -> n <= 2 ^ j -> next_power_of_2 n <= 2 ^ j.
Proof.
  intros Hj Hn. unfold next_power_of_2.
  apply Z.pow_le_mono_r; [lia|].
  destruct (Z.le_gt_cases n 1) as [H|H].
  - rewrite Z.log2_up_eqn0 by exact H. exact Hj.
  - pose proof (Z.log2_up_spec n ltac:(lia)) as [Hlo _].
    assert (Hlt : 2 ^ Z.pred (Z.log2_up n) < 2 ^ j) by lia.
    apply Z.pow_lt_mono_r_iff in Hlt; lia.
Qed.

(** From 2 on, half of the block is too small for the row. *)
Lemma next_power_of_2_half (n : Z) :
  2 <= next_power_of_2 n ->
  2 * (next_power_of_2 n / 2) = next_power_of_2 n /\
  next_power_of_2 n / 2 < n.
Proof.
  unfold next_power_of_2. intros H2.
  destruct (Z.le_gt_cases n 1) as [H|H].
  - rewrite Z.log2_up_eqn0 in H2 by exact H. simpl in H2. lia.
  - pose proof (Z.log2_up_spec n ltac:(lia)) as [Hlo _].
    pose proof (Z.log2_up_pos n ltac:(lia)) as Hpos.
    assert (Hk : 2 ^ Z.log2_up n = 2 * 2 ^ Z.pred (Z.log2_up n)).
    { rewrite <- Z.pow_succ_r by lia. f_equal. lia. }
    rewrite Hk.
    replace (2 * 2 ^ Z.pred (Z.log2_up n) / 2)
      with (2 ^ Z.pred (Z.log2_up n))
      by (apply Z.div_unique_exact; lia).
    split; [reflexivity|exact Hlo].
Qed.

Lemma choose_kernel_cases (b : Z) :
  (b < 64 * 1024 /\ choose_kernel b = k_softmax_kernel) \/
  (64 * 1024 <= b /\ choose_kernel b = k_softmax_kernel_big_row).
Proof.
  unfold choose_kernel. cbv zeta. rewrite andb_true_l.
  destruct (Z.leb_spec (64 * 1024) b); [right|left]; split; auto.
Qed.

Lemma block_ptrs_length (row_start col_start B : Z) :
  length (block_ptrs row_start col_start B) = Z.to_nat B.
Proof.
  unfold block_ptrs, tl.add_int, tl.arange.
  rewrite !length_map, length_seq, Z.sub_0_r. reflexivity.
Qed.

(** Blocks 0 and 1, one after the other, are the block of twice the size
    from column 0 on. *)
Lemma block_ptrs_app (row_start B : Z) :
  0 <= B ->
  block_ptrs row_start 0 B ++ block_ptrs row_start B B =
  block_ptrs row_start 0 (2 * B).
Proof.
  intros HB. unfold block_ptrs. rewrite !add_int_arange by lia.
  rewrite <- map_app. f_equal.
  replace (Z.to_nat (2 * B)) with (Z.to_nat B + Z.to_nat B)%nat by lia.
  rewrite seq_app. reflexivity.
Qed.

Lemma big_row_events_loads (in_row out_row B : Z) (ptrs : list Z) :
  In (EvLoad ptrs) (big_row_events in_row out_row B) <->
  ptrs = block_ptrs in_row 0 B \/ ptrs = block_ptrs in_row B B.
Proof.
  unfold big_row_events. cbn [app In]. split.
  - intros [H|[H|[H|[H|[H|[H|[]]]]]]];
      try discriminate; injection H as <-; auto.
  - intros [->| ->]; auto.
Qed.

Lemma big_row_events_stores (in_row out_row B : Z) (ptrs : list Z) :
  In (EvStore ptrs) (big_row_events in_row out_row B) <->
  ptrs = block_ptrs out_row 0 B \/ ptrs = block_ptrs out_row B B.
Proof.
  unfold big_row_events. cbn [app In]. split.
  - intros [H|[H|[H|[H|[H|[H|[]]]]]]];
      try discriminate; injection H as <-; auto.
  - intros [->| ->]; auto 7.
Qed.

(** C5 (as the code has it). For every N >= 1 the launcher takes as
    [BLOCK_SIZE] the smallest power of two that is at least N, with no
    cap on it. Below 64 * 1024 the instance it runs is [softmax_kernel],
    which loads and stores one block of [BLOCK_SIZE] positions. From
    64 * 1024 on the instance it runs is [softmax_kernel_big_row]: the
    blocks that kernel loads are exactly two distinct blocks of
    [BLOCK_SIZE / 2] positions each, which one after the other are the
    [BLOCK_SIZE] positions of the padded row, and the blocks it stores
    are the two blocks of the output row in the same way. *)
Theorem C5_launch_configuration (N : Z) :
  1 <= N ->
  let c := softmax_config N in
  let BS := BLOCK_SIZE c in
  (exists j, 0 <= j /\ BS = 2 ^ j) /\
  N <= BS /\
  (forall j, 0 <= j -> N <= 2 ^ j -> BS <= 2 ^ j) /\
  forall (y x x_stride y_stride row_idx : Z) (s : state),
    let in_row := x + row_idx * x_stride in
    let out_row := y + row_idx * y_stride in
    (BS < 64 * 1024 ->
     let s' := softmax_kernel y x x_stride y_stride N BS row_idx s in
     run_instance c y x x_stride y_stride N row_idx s = Some s' /\
     trace s' = trace s ++ [EvLoad (block_ptrs in_row 0 BS);
                            EvStore (block_ptrs out_row 0 BS)] /\
     length (block_ptrs in_row 0 BS) = Z.to_nat BS /\
     length (block_ptrs out_row 0 BS) = Z.to_nat BS)
    /\
    (64 * 1024 <= BS ->
     exists s' evs,
       run_instance c y x x_stride y_stride N row_idx s = Some s' /\
       softmax_kernel_big_row y x x_stride y_stride N BS row_idx s
       = Some s' /\
       trace s' = trace s ++ evs /\
       (forall ptrs,
           In (EvLoad ptrs) evs <->
           ptrs = block_ptrs in_row 0 (BS / 2) \/
           ptrs = block_ptrs in_row (BS / 2) (BS / 2)) /\
       (forall ptrs,
           In (EvStore ptrs) evs <->
           ptrs = block_ptrs out_row 0 (BS / 2) \/
           ptrs = block_ptrs out_row (BS / 2) (BS / 2)) /\
       block_ptrs in_row 0 (BS / 2) <> block_ptrs in_row (BS / 2) (BS / 2) /\
       length (block_ptrs in_row 0 (BS / 2)) = Z.to_nat (BS / 2) /\
       length (block_ptrs in_row (BS / 2) (BS / 2)) = Z.to_nat (BS / 2) /\
       block_ptrs in_row 0 (BS / 2) ++ block_ptrs in_row (BS / 2) (BS / 2)
       = block_ptrs in_row 0 BS /\
       block_ptrs out_row 0 (BS / 2) ++ block_ptrs out_row (BS / 2) (BS / 2)
       = block_ptrs out_row 0 BS).
Proof.
  intros HN c BS. subst c BS. unfold softmax_config, run_instance.
  cbn [BLOCK_SIZE k]. set (BS := next_power_of_2 N).
  split; [apply next_power_of_2_pow2|].
  split; [apply next_power_of_2_ge|].
  split; [intros j; apply next_power_of_2_least|].
  intros y x x_stride y_stride row_idx s.
  set (in_row := x + row_idx * x_stride).
  set (out_row := y + row_idx * y_stride).
  destruct (choose_kernel_cases BS) as [[Hb Hk]|[Hb Hk]]; rewrite Hk.
  - split; [intros _|intros H; lia].
    split; [reflexivity|].
    split; [apply softmax_kernel_trace|].
    split; apply block_ptrs_length.
  - split; [intros H; lia|intros _].
    destruct (next_power_of_2_half N) as [Heven _]; [fold BS; lia|].
    fold BS in Heven.
    assert (HB : 1 <= BS / 2) by lia.
    destruct (softmax_kernel_big_row_trace y x x_stride y_stride N BS
                row_idx s HB) as (s' & Hrun & Htr).
    exists s', (big_row_events in_row out_row (BS / 2)).
    split; [exact Hrun|]. split; [exact Hrun|]. split; [exact Htr|].
    split; [apply big_row_events_loads|].
    split; [apply big_row_events_stores|].
    split; [apply block_ptrs_distinct, HB|].
    split; [apply block_ptrs_length|]. split; [apply block_ptrs_length|].
    split; rewrite block_ptrs_app by lia; rewrite Heven; reflexivity.
Qed.

Lemma C5_launch_configuration_witness :
  let N := 64 * 1024 + 11 in
  exists s',
    run_instance (softmax_config N) 0 0 N N N 0 ones_state = Some s' /\
    softmax_kernel_big_row 0 0 N N N 131072 0 ones_state = Some s' /\
    trace s' = trace ones_state ++ big_row_events (0 + 0 * N) (0 + 0 * N)
                                                  65536.
Proof.
  intros N.
  pose proof (C5_launch_configuration N) as H.
  destruct H as (_ & _ & _ & H); [subst N; lia|].
  destruct (H 0 0 N N 0 ones_state) as [_ Hbig].
  destruct Hbig as (s' & evs & Hrun & Hk & Htr & _);
    [vm_compute; discriminate|].
  assert (Hk' : softmax_kernel_big_row 0 0 N N N 131072 0 ones_state
                = Some s') by exact Hk.
  exists s'. split; [exact Hrun|]. split; [exact Hk'|].
  destruct (softmax_kernel_big_row_trace 0 0 N N N 131072 0 ones_state)
    as (s'' & Hrun' & Htr'); [vm_compute; discriminate|].
  rewrite Hk' in Hrun'. injection Hrun' as <-. exact Htr'.
Defined.

(** The block size the launcher chooses is not capped: whatever bound
    [T] is proposed for the number of positions of a block, some row
    makes the instance the launcher runs load a larger block. *)
Lemma C5_counterexample :
  ~ (exists T,
        forall N s' ptrs,
          1 <= N ->
          run_instance (softmax_config N) 0 0 N N N 0 ones_state = Some s' ->
          In (EvLoad ptrs) (trace s') ->
          Z.of_nat (length ptrs) <= T).
Proof.
  intros [T HT].
  set (e := Z.max 17 (T + 1)).
  assert (He : 17 <= e /\ T + 1 <= e) by (unfold e; lia).
  set (N := 2 ^ e).
  assert (HN : 1 <= N).
  { unfold N. apply Z.le_trans with (2 ^ 0);
      [simpl; lia|apply Z.pow_le_mono_r; lia]. }
  assert (Hbs : next_power_of_2 N = N).
  { unfold next_power_of_2, N. rewrite Z.log2_up_pow2 by lia. reflexivity. }
  assert (Hbig : 64 * 1024 <= N).
  { unfold N. change (64 * 1024) with (2 ^ 16).
    apply Z.pow_le_mono_r; lia. }
  assert (Hhalf : N / 2 = 2 ^ (e - 1)).
  { unfold N. symmetry. apply Z.div_unique_exact; [lia|].
    rewrite <- Z.pow_succ_r by lia. f_equal. lia. }
  assert (Hpos : 0 < 2 ^ (e - 1)) by (apply Z.pow_pos_nonneg; lia).
  assert (HB : 1 <= N / 2) by lia.
  destruct (softmax_kernel_big_row_trace 0 0 N N N N 0 ones_state HB)
    as (s' & Hrun & Htr).
  assert (Hinst : run_instance (softmax_config N) 0 0 N N N 0 ones_state
                  = Some s').
  { unfold run_instance, softmax_config. cbn [BLOCK_SIZE k]. rewrite Hbs.
    destruct (choose_kernel_cases N) as [[Hb _]|[_ Hk]]; [lia|].
    rewrite Hk. exact Hrun. }
  specialize (HT N s' (block_ptrs (0 + 0 * N) 0 (N / 2)) HN Hinst).
  rewrite block_ptrs_length in HT.
  assert (Hin : In (EvLoad (block_ptrs (0 + 0 * N) 0 (N / 2))) (trace s')).
  { cbv zeta in Htr. rewrite Htr. apply in_or_app. right.
    left. reflexivity. }
  specialize (HT Hin). rewrite Z2Nat.id in HT by lia.
  rewrite Hhalf in HT.
  destruct (Z.le_gt_cases 0 T) as [HT0|HT0].
  - pose proof (Z.pow_gt_lin_r 2 T ltac:(lia) HT0) as Hlin.
    assert (Hmono : 2 ^ T <= 2 ^ (e - 1)) by (apply Z.pow_le_mono_r; lia).
    lia.
  - lia.
Qed.

(** C9. [num_warps] is 4 below 2048, 8 from 2048, 16 from 4096 and 32
    from 8096 on, and never decreases when [BLOCK_SIZE] grows. *)
Theorem C9_num_warps_monotone :
  (forall b, choose_num_warps b =
             if b <? 2048 then 4
             else if b <? 4096 then 8
                  else if b <? 8096 then 16 else 32)
  /\
  (forall b1 b2, b1 <= b2 -> choose_num_warps b1 <= choose_num_warps b2).
Proof.
  split.
  - intros b. unfold choose_num_warps. cbv zeta.
    destruct (Z.leb_spec 2048 b), (Z.leb_spec 4096 b), (Z.leb_spec 8096 b),
      (Z.ltb_spec b 2048), (Z.ltb_spec b 4096), (Z.ltb_spec b 8096);
      try reflexivity; lia.
  - intros b1 b2 Hle. unfold choose_num_warps. cbv zeta.
    destruct (Z.leb_spec 2048 b1), (Z.leb_spec 4096 b1),
      (Z.leb_spec 8096 b1), (Z.leb_spec 2048 b2), (Z.leb_spec 4096 b2),
      (Z.leb_spec 8096 b2); lia.
Qed.

Lemma C9_num_warps_monotone_witness :
  choose_num_warps 4096 <= choose_num_warps 8192.
Proof.
  destruct C9_num_warps_monotone as [_ Hmono].
  apply (Hmono 4096 8192). lia.
Defined.




(* ================================================================= *)
(** ** The whole launch *)

(** One instance of the launch computes its row and leaves the rest of
    memory alone, whichever kernel the launcher chose. *)
Lemma run_instance_correct (y x x_stride y_stride row_idx : Z)
      (xs : list R) (s : state) :
  row_data (heap s) (x + row_idx * x_stride) xs ->
  (forall c c', (c < length xs)%nat -> (c' < length xs)%nat ->
                addr y y_stride row_idx c <> addr x x_stride row_idx c') ->
  exists s',
    run_instance (softmax_config (Z.of_nat (length xs))) y x x_stride
                 y_stride (Z.of_nat (length xs)) row_idx s = Some s' /\
    (forall c, (c < length xs)%nat ->
               heap s' (addr y y_stride row_idx c) =
               Fin (softmax_ref xs c)) /\
    (forall a, ~ in_row_range y y_stride row_idx (Z.of_nat (length xs)) a ->
               heap s' a = heap s a).
Proof.
  intros Hrow Hdisj. unfold run_instance, softmax_config.
  cbn [BLOCK_SIZE k].
  set (N := Z.of_nat (length xs)).
  pose proof (next_power_of_2_ge N) as Hge.
  destruct (choose_kernel_cases (next_power_of_2 N)) as [[Hb Hk]|[Hb Hk]];
    rewrite Hk.
  - eexists. split; [reflexivity|]. split.
    + intros c Hc. apply sk_value; assumption.
    + intros a Ha. apply softmax_kernel_frame.
      intros c Hc He. apply Ha. exists c. split; assumption.
  - destruct (next_power_of_2_half N ltac:(lia)) as [Heven Hhalf].
    assert (HB : 1 <= next_power_of_2 N / 2) by lia.
    assert (Hne : xs <> []).
    { intros ->. unfold N in Hb. simpl in Hb. vm_compute in Hb.
      apply Hb. reflexivity. }
    destruct (big_row_value y x x_stride y_stride (next_power_of_2 N)
                row_idx xs s HB ltac:(fold N; lia) Hne Hrow Hdisj)
      as (s' & Hrun & Hval).
    exists s'. split; [exact Hrun|]. split; [exact Hval|].
    intros a Ha.
    apply (softmax_kernel_big_row_frame _ _ _ _ _ _ _ _ _ _ HB Hrun).
    intros c Hc He. apply Ha. exists c. split; assumption.
Qed.

Section Launch.

Variables (y x x_stride y_stride : Z).
Variables (rows : list (list R)) (N : nat).

(** Every row has N columns, the rows of the output do not overlap each
    other, and the output tensor does not overlap the input tensor. *)
Hypothesis Hshape : forall r, (r < length rows)%nat ->
                              length (nth r rows []) = N.
Hypothesis Hstride : Z.of_nat N <= y_stride.
Hypothesis Hfresh :
  forall r r' c c',
    (r < length rows)%nat -> (r' < length rows)%nat ->
    (c < N)%nat -> (c' < N)%nat ->
    addr y y_stride (Z.of_nat r) c <> addr x x_stride (Z.of_nat r') c'.

Lemma launch_prefix (s : state) (n : nat) :
  matrix_data (heap s) x x_stride rows ->
  (n <= length rows)%nat ->
  exists s',
    fold_left
      (fun acc row_idx =>
         s <- acc ;; run_instance (softmax_config (Z.of_nat N)) y x
                                  x_stride y_stride (Z.of_nat N) row_idx s)
      (map (fun i => 0 + Z.of_nat i) (seq 0 n)) (Some s) = Some s' /\
    matrix_data (heap s') x x_stride rows /\
    forall r c, (r < n)%nat -> (c < N)%nat ->
                heap s' (addr y y_stride (Z.of_nat r) c) =
                Fin (softmax_ref (nth r rows []) c).
Proof.
  intros Hdata. induction n as [|n IH]; intros Hn.
  - exists s. split; [reflexivity|]. split; [exact Hdata|]. intros; lia.
  - destruct (IH ltac:(lia)) as (s1 & Hrun1 & Hdata1 & Hval1).
    rewrite seq_S, map_app, fold_left_app, Hrun1. cbn [map fold_left bind].
    rewrite Z.add_0_l. simpl Nat.add.
    pose proof (Hshape n ltac:(lia)) as Hlen.
    destruct (run_instance_correct y x x_stride y_stride (Z.of_nat n)
                (nth n rows []) s1) as (s2 & Hrun2 & Hval2 & Hframe2).
    + apply Hdata1. lia.
    + rewrite Hlen. intros c c' Hc Hc'. apply Hfresh; lia.
    + rewrite Hlen in Hrun2, Hframe2. exists s2.
      split; [exact Hrun2|]. split.
      * intros r Hr j Hj. rewrite Hframe2; [apply Hdata1; assumption|].
        intros (c & Hc & He).
        apply (Hfresh n r (Z.to_nat c) j); try lia.
        { rewrite <- (Hshape r Hr). exact Hj. }
        unfold addr. lia.
      * intros r c Hr Hc. destruct (Nat.eq_dec r n) as [->|Hne].
        { apply Hval2. lia. }
        rewrite Hframe2; [apply Hval1; lia|].
        apply (in_row_range_disjoint _ _ _ (Z.of_nat r));
          [exact Hstride|lia|].
        exists (Z.of_nat c). unfold addr. lia.
Qed.

(** [softmax] returns, and the output tensor then holds, at every row
    and column, the softmax of the row, whichever kernel was enqueued. *)
Theorem softmax_correct (s : state) :
  matrix_data (heap s) x x_stride rows ->
  exists s',
    softmax y x x_stride y_stride (Z.of_nat (length rows)) (Z.of_nat N) s
    = Some s' /\
    forall r c, (r < length rows)%nat -> (c < N)%nat ->
                heap s' (addr y y_stride (Z.of_nat r) c) =
                Fin (softmax_ref (nth r rows []) c).
Proof.
  intros Hdata.
  destruct (launch_prefix s (length rows) Hdata (Nat.le_refl _))
    as (s' & Hrun & _ & Hval).
  exists s'. split; [|exact Hval].
  unfold softmax, launch, tl.arange.
  rewrite Z.sub_0_r, Nat2Z.id. exact Hrun.
Qed.

End Launch.

(* ================================================================= *)
(** ** The output row as a list *)

Lemma map_nth_seq {A : Type} (f : R -> A) (xs : list R) :
  map (fun c => f (nth c xs 0%R)) (seq 0 (length xs)) = map f xs.
Proof.
  induction xs as [|x t IH]; [reflexivity|].
  simpl. f_equal. rewrite <- seq_shift, map_map. exact IH.
Qed.

Lemma softmax_row_eq (xs : list R) :
  softmax_row xs =
  map (fun x => (exp (x - row_max xs) / sum_exp xs (row_max xs))%R) xs.
Proof.
  unfold softmax_row, softmax_ref.
  apply (map_nth_seq
           (fun x => (exp (x - row_max xs) / sum_exp xs (row_max xs))%R)).
Qed.

Lemma softmax_row_length (xs : list R) :
  length (softmax_row xs) = length xs.
Proof. unfold softmax_row. rewrite length_map, length_seq. reflexivity. Qed.

Lemma nth_softmax_row (xs : list R) (c : nat) :
  (c < length xs)%nat -> nth c (softmax_row xs) 0%R = softmax_ref xs c.
Proof.
  intros Hc. unfold softmax_row.
  rewrite (nth_indep _ 0%R (softmax_ref xs 0))
    by (rewrite length_map, length_seq; exact Hc).
  rewrite (map_nth (softmax_ref xs)), seq_nth by exact Hc. reflexivity.
Qed.

Lemma softmax_kernel_writes_row
      (output_ptr input_ptr input_row_stride output_row_stride : Z)
      (BS row_idx : Z) (xs : list R) (s : state) :
  row_data (heap s) (input_ptr + row_idx * input_row_stride) xs ->
  Z.of_nat (length xs) <= BS ->
  row_written
    (heap (softmax_kernel output_ptr input_ptr input_row_stride
             output_row_stride (Z.of_nat (length xs)) BS row_idx s))
    output_ptr output_row_stride row_idx (softmax_row xs).
Proof.
  intros Hrow Hfit c Hc. rewrite softmax_row_length in Hc.
  rewrite nth_softmax_row by exact Hc. apply sk_value; assumption.
Qed.

Lemma big_row_writes_row
      (output_ptr input_ptr input_row_stride output_row_stride : Z)
      (BS row_idx : Z) (xs : list R) (s : state) :
  1 <= BS / 2 ->
  Z.of_nat (length xs) <= 2 * (BS / 2) ->
  xs <> [] ->
  row_data (heap s) (input_ptr + row_idx * input_row_stride) xs ->
  (forall c c', (c < length xs)%nat -> (c' < length xs)%nat ->
                addr output_ptr output_row_stride row_idx c <>
                addr input_ptr input_row_stride row_idx c') ->
  exists s',
    softmax_kernel_big_row output_ptr input_ptr input_row_stride
      output_row_stride (Z.of_nat (length xs)) BS row_idx s = Some s' /\
    row_written (heap s') output_ptr output_row_stride row_idx
                (softmax_row xs).
Proof.
  intros HB Hfit Hne Hrow Hdisj.
  destruct (big_row_value _ _ _ _ _ _ _ _ HB Hfit Hne Hrow Hdisj)
    as (s' & Hrun & Hval).
  exists s'. split; [exact Hrun|]. intros c Hc.
  rewrite softmax_row_length in Hc.
  rewrite nth_softmax_row by exact Hc. apply Hval, Hc.
Qed.

(* ================================================================= *)
(** ** The maximum and the sum of exponentials *)

Lemma row_max_ge (xs : list R) (x : R) :
  In x xs -> (x <= row_max xs)%R.
Proof.
  induction xs as [|y t IH]; intros Hin; [contradiction|].
  destruct t as [|z t].
  - destruct Hin as [->|[]]. simpl. lra.
  - change (row_max (y :: z :: t)) with (Rmax y (row_max (z :: t))).
    destruct Hin as [->|Hin].
    + apply Rmax_l.
    + apply Rle_trans with (row_max (z :: t)); [apply IH, Hin|].
      apply Rmax_r.
Qed.

Lemma row_max_in (xs : list R) : xs <> [] -> In (row_max xs) xs.
Proof.
  induction xs as [|y t IH]; intros Hne; [congruence|].
  destruct t as [|z t]; [left; reflexivity|].
  change (row_max (y :: z :: t)) with (Rmax y (row_max (z :: t))).
  destruct (Rmax_case y (row_max (z :: t)) (fun r => r = y \/ r = row_max (z :: t)))
    as [H|H]; [left; reflexivity|right; reflexivity| |].
  - rewrite H. left. reflexivity.
  - rewrite H. right. apply IH. discriminate.
Qed.

Lemma exp_le_1 (x : R) : (x <= 0)%R -> (exp x <= 1)%R.
Proof.
  intros [Hlt | ->].
  - rewrite <- exp_0. left. apply exp_increasing, Hlt.
  - rewrite exp_0. lra.
Qed.

Lemma Rsum_nonneg (xs : list R) :
  (forall x, In x xs -> (0 <= x)%R) -> (0 <= Rsum xs)%R.
Proof.
  induction xs as [|x t IH]; intros H; simpl; [lra|].
  pose proof (H x (or_introl eq_refl)).
  assert (0 <= Rsum t)%R by (apply IH; intros y Hy; apply H; right; exact Hy).
  lra.
Qed.

Lemma sum_exp_ge_term (xs : list R) (M x : R) :
  In x xs -> (exp (x - M) <= sum_exp xs M)%R.
Proof.
  unfold sum_exp. induction xs as [|y t IH]; intros Hin; [contradiction|].
  simpl.
  assert (Ht : (0 <= Rsum (map (fun x0 => exp (x0 - M)) t))%R).
  { apply Rsum_nonneg. intros v Hv. apply in_map_iff in Hv.
    destruct Hv as (w & <- & _). left. apply exp_pos. }
  destruct Hin as [->|Hin].
  - lra.
  - specialize (IH Hin). pose proof (exp_pos (y - M)). lra.
Qed.

Lemma sum_exp_le_length (xs : list R) (M : R) :
  (forall x, In x xs -> (x <= M)%R) ->
  (sum_exp xs M <= INR (length xs))%R.
Proof.
  unfold sum_exp. induction xs as [|y t IH]; intros H.
  - simpl. lra.
  - change (length (y :: t)) with (S (length t)). rewrite S_INR. simpl.
    assert (exp (y - M) <= 1)%R.
    { apply exp_le_1. pose proof (H y (or_introl eq_refl)). lra. }
    assert (Rsum (map (fun x => exp (x - M)) t) <= INR (length t))%R
      by (apply IH; intros x Hx; apply H; right; exact Hx).
    lra.
Qed.

(** After the maximum is subtracted, the sum of exponentials lies
    between 1 and the number of columns. *)
Lemma sum_exp_row_max_bounds (xs : list R) :
  xs <> [] ->
  (1 <= sum_exp xs (row_max xs) <= INR (length xs))%R.
Proof.
  intros Hne. split.
  - pose proof (sum_exp_ge_term xs (row_max xs) (row_max xs)
                  (row_max_in xs Hne)) as H.
    replace (row_max xs - row_max xs)%R with 0%R in H by lra.
    rewrite exp_0 in H. exact H.
  - apply sum_exp_le_length. intros x Hx. apply row_max_ge, Hx.
Qed.

Lemma Rsum_map_div (f : R -> R) (S : R) (xs : list R) :
  Rsum (map (fun x => (f x / S)%R) xs) = (Rsum (map f xs) / S)%R.
Proof.
  induction xs as [|x t IH]; simpl.
  - unfold Rdiv. ring.
  - rewrite IH. unfold Rdiv. ring.
Qed.

Lemma softmax_row_sum (xs : list R) :
  xs <> [] -> Rsum (softmax_row xs) = 1%R.
Proof.
  intros Hne. rewrite softmax_row_eq.
  rewrite (Rsum_map_div (fun x => exp (x - row_max xs))).
  fold (sum_exp xs (row_max xs)).
  pose proof (sum_exp_pos xs (row_max xs) Hne).
  unfold Rdiv. apply Rinv_r. lra.
Qed.

Lemma softmax_row_bounds (xs : list R) :
  Forall (fun p => (0 < p <= 1)%R) (softmax_row xs).
Proof.
  rewrite softmax_row_eq. apply Forall_forall. intros p Hp.
  apply in_map_iff in Hp. destruct Hp as (x & <- & Hx).
  assert (Hne : xs <> []) by (intros ->; contradiction).
  pose proof (sum_exp_pos xs (row_max xs) Hne) as HS.
  pose proof (sum_exp_ge_term xs (row_max xs) x Hx) as Hle.
  pose proof (exp_pos (x - row_max xs)) as He.
  split.
  - apply Rdiv_lt_0_compat; assumption.
  - apply Rmult_le_reg_r with (sum_exp xs (row_max xs)); [exact HS|].
    unfold Rdiv. rewrite Rmult_assoc, Rinv_l by lra. lra.
Qed.

(** Both kernels write the reference row. *)
Lemma kernels_write_softmax_row
      (output_ptr input_ptr input_row_stride output_row_stride : Z)
      (BS row_idx : Z) (xs : list R) (s : state) :
  xs <> [] ->
  row_data (heap s) (input_ptr + row_idx * input_row_stride) xs ->
  (Z.of_nat (length xs) <= BS ->
   row_written
     (heap (softmax_kernel output_ptr input_ptr input_row_stride
              output_row_stride (Z.of_nat (length xs)) BS row_idx s))
     output_ptr output_row_stride row_idx (softmax_row xs))
  /\
  (1 <= BS / 2 ->
   Z.of_nat (length xs) <= 2 * (BS / 2) ->
   no_overlap output_ptr output_row_stride input_ptr input_row_stride
              row_idx (length xs) ->
   exists s',
     softmax_kernel_big_row output_ptr input_ptr input_row_stride
       output_row_stride (Z.of_nat (length xs)) BS row_idx s = Some s' /\
     row_written (heap s') output_ptr output_row_stride row_idx
                 (softmax_row xs)).
Proof.
  intros Hne Hrow. split.
  - intros Hfit. apply softmax_kernel_writes_row; assumption.
  - intros HB Hfit Hdisj. apply big_row_writes_row; assumption.
Qed.

Lemma ones_no_overlap : no_overlap 100 3 0 3 0 3.
Proof. intros c c' Hc Hc'. apply (far_apart 3 c c'); lia. Defined.

(* ================================================================= *)
(** ** The written row is a probability distribution *)

(** Whichever kernel runs, the row it writes for a non-empty finite row
    is a probability distribution: N values, each in (0, 1], that sum
    to 1. *)
Theorem written_row_is_distribution
        (output_ptr input_ptr input_row_stride output_row_stride : Z)
        (BS row_idx : Z) (xs : list R) (s : state) :
  xs <> [] ->
  row_data (heap s) (input_ptr + row_idx * input_row_stride) xs ->
  exists ps,
    length ps = length xs /\
    Forall (fun p => (0 < p <= 1)%R) ps /\
    Rsum ps = 1%R /\
    (Z.of_nat (length xs) <= BS ->
     row_written
       (heap (softmax_kernel output_ptr input_ptr input_row_stride
                output_row_stride (Z.of_nat (length xs)) BS row_idx s))
       output_ptr output_row_stride row_idx ps) /\
    (1 <= BS / 2 ->
     Z.of_nat (length xs) <= 2 * (BS / 2) ->
     no_overlap output_ptr output_row_stride input_ptr input_row_stride
                row_idx (length xs) ->
     exists s',
       softmax_kernel_big_row output_ptr input_ptr input_row_stride
         output_row_stride (Z.of_nat (length xs)) BS row_idx s = Some s' /\
       row_written (heap s') output_ptr output_row_stride row_idx ps).
Proof.
  intros Hne Hrow. exists (softmax_row xs).
  split; [apply softmax_row_length|].
  split; [apply softmax_row_bounds|].
  split; [apply softmax_row_sum, Hne|].
  apply kernels_write_softmax_row; assumption.
Qed.

Lemma written_row_is_distribution_witness :
  exists ps,
    length ps = 3%nat /\ Rsum ps = 1%R /\
    row_written (heap (softmax_kernel 100 0 3 3 3 4 0 ones_state))
                100 3 0 ps /\
    exists s',
      softmax_kernel_big_row 100 0 3 3 3 4 0 ones_state = Some s' /\
      row_written (heap s') 100 3 0 ps.
Proof.
  destruct (written_row_is_distribution 100 0 3 3 4 0 (repeat 1%R 3)
              ones_state) as (ps & Hlen & _ & Hsum & Hsingle & Hmulti).
  - discriminate.
  - apply ones_row_data.
  - exists ps. split; [exact Hlen|]. split; [exact Hsum|]. split.
    + apply Hsingle. simpl. lia.
    + apply Hmulti; [cbv; discriminate|simpl; lia|apply ones_no_overlap].
Defined.

(* ================================================================= *)
(** ** Subtracting the maximum *)

Lemma nth_numerators (ys : list R) (k j : nat) (M : R) :
  (j < length ys)%nat ->
  nth j (map (fun y => Fin (exp (y - M))) ys ++ repeat (Fin 0%R) k) NaN =
  Fin (exp (nth j ys 0%R - M)).
Proof.
  intros Hj. rewrite app_nth1 by (rewrite length_map; exact Hj).
  rewrite (nth_indep _ NaN (Fin (exp (0 - M))))
    by (rewrite length_map; exact Hj).
  apply (map_nth (fun y => Fin (exp (y - M)))).
Qed.

(** Because the maximum is subtracted before the exponential, no
    exponential overflows: in [softmax_kernel] every numerator of an
    in-range column is a finite value in (0, 1], and in both kernels the
    denominator is a finite value between 1 and N. *)
Theorem max_subtraction_bounds
        (output_ptr input_ptr input_row_stride output_row_stride : Z)
        (BS row_idx : Z) (xs : list R) (s : state) :
  xs <> [] ->
  row_data (heap s) (input_ptr + row_idx * input_row_stride) xs ->
  (Z.of_nat (length xs) <= BS ->
   let l := softmax_kernel_locals output_ptr input_ptr input_row_stride
              output_row_stride (Z.of_nat (length xs)) BS row_idx s in
   (forall c, (c < length xs)%nat ->
      exists p, nth c (k_numerator l) NaN = Fin p /\ (0 < p <= 1)%R) /\
   exists S, k_denominator l = Fin S /\ (1 <= S <= INR (length xs))%R)
  /\
  (1 <= BS / 2 ->
   Z.of_nat (length xs) <= 2 * (BS / 2) ->
   no_overlap output_ptr output_row_stride input_ptr input_row_stride
              row_idx (length xs) ->
   exists l,
     softmax_kernel_big_row_locals output_ptr input_ptr input_row_stride
       output_row_stride (Z.of_nat (length xs)) BS row_idx s = Some l /\
     exists S, b_tl_sum l = Fin S /\ (1 <= S <= INR (length xs))%R).
Proof.
  intros Hne Hrow. split.
  - intros Hfit l. subst l. split.
    + intros c Hc. rewrite sk_numerator by assumption.
      rewrite nth_numerators by exact Hc.
      eexists. split; [reflexivity|]. split; [apply exp_pos|].
      apply exp_le_1.
      pose proof (row_max_ge xs (nth c xs 0%R) (nth_In xs 0%R Hc)). lra.
    + rewrite sk_denominator by assumption.
      eexists. split; [reflexivity|]. apply sum_exp_row_max_bounds, Hne.
  - intros HB Hfit Hdisj.
    destruct (br_result _ _ _ _ _ _ _ _ HB Hfit Hne Hrow Hdisj)
      as (l & Hl & _ & Hs & _).
    exists l. split; [exact Hl|].
    eexists. split; [exact Hs|]. apply sum_exp_row_max_bounds, Hne.
Qed.

Lemma max_subtraction_bounds_witness :
  (exists S, k_denominator (softmax_kernel_locals 100 0 3 3 3 4 0
                                                  ones_state) = Fin S /\
             (1 <= S <= 3)%R) /\
  exists l,
    softmax_kernel_big_row_locals 100 0 3 3 3 4 0 ones_state = Some l /\
    exists S, b_tl_sum l = Fin S /\ (1 <= S <= 3)%R.
Proof.
  destruct (max_subtraction_bounds 100 0 3 3 4 0 (repeat 1%R 3) ones_state)
    as [Hsingle Hmulti].
  - discriminate.
  - apply ones_row_data.
  - assert (H3 : INR (length (repeat 1%R 3)) = 3%R) by (simpl; lra).
    split.
    + destruct Hsingle as [_ (S & HS & Hb)]; [simpl; lia|].
      exists S. split; [exact HS|]. rewrite H3 in Hb. exact Hb.
    + destruct Hmulti as (l & Hl & S & HS & Hb);
        [cbv; discriminate|simpl; lia|apply ones_no_overlap|].
      exists l. split; [exact Hl|]. exists S. split; [exact HS|].
      rewrite H3 in Hb. exact Hb.
Defined.

(* ================================================================= *)
(** ** Shift invariance *)

Lemma row_max_shift (k : R) (xs : list R) :
  xs <> [] -> row_max (map (Rplus k) xs) = (k + row_max xs)%R.
Proof.
  induction xs as [|y t IH]; intros Hne; [congruence|].
  destruct t as [|z t]; [reflexivity|].
  change (row_max (map (Rplus k) (y :: z :: t)))
    with (Rmax (k + y) (row_max (map (Rplus k) (z :: t)))).
  rewrite IH by discriminate.
  change (row_max (y :: z :: t)) with (Rmax y (row_max (z :: t))).
  unfold Rmax.
  destruct (Rle_dec (k + y) (k + row_max (z :: t))),
           (Rle_dec y (row_max (z :: t))); lra.
Qed.

Lemma sum_exp_shift (k M : R) (xs : list R) :
  sum_exp (map (Rplus k) xs) (k + M) = sum_exp xs M.
Proof.
  unfold sum_exp. rewrite map_map. f_equal. apply map_ext.
  intros x. f_equal. lra.
Qed.

Lemma softmax_row_shift (k : R) (xs : list R) :
  softmax_row (map (Rplus k) xs) = softmax_row xs.
Proof.
  destruct xs as [|x0 t]; [reflexivity|].
  assert (Hne : x0 :: t <> []) by discriminate.
  rewrite !softmax_row_eq, map_map, row_max_shift by exact Hne.
  rewrite sum_exp_shift. apply map_ext. intros x. do 2 f_equal. lra.
Qed.

(** "Softmax is invariant to this shift": when the same constant [k] is
    added to every element of the row, both kernels write exactly the
    row they write without the shift. *)
Theorem kernels_shift_invariant
        (output_ptr input_ptr input_row_stride output_row_stride : Z)
        (BS row_idx : Z) (k : R) (xs : list R) (s : state) :
  xs <> [] ->
  row_data (heap s) (input_ptr + row_idx * input_row_stride)
           (map (Rplus k) xs) ->
  (Z.of_nat (length xs) <= BS ->
   row_written
     (heap (softmax_kernel output_ptr input_ptr input_row_stride
              output_row_stride (Z.of_nat (length xs)) BS row_idx s))
     output_ptr output_row_stride row_idx (softmax_row xs))
  /\
  (1 <= BS / 2 ->
   Z.of_nat (length xs) <= 2 * (BS / 2) ->
   no_overlap output_ptr output_row_stride input_ptr input_row_stride
              row_idx (length xs) ->
   exists s',
     softmax_kernel_big_row output_ptr input_ptr input_row_stride
       output_row_stride (Z.of_nat (length xs)) BS row_idx s = Some s' /\
     row_written (heap s') output_ptr output_row_stride row_idx
                 (softmax_row xs)).
Proof.
  intros Hne Hrow.
  assert (Hne' : map (Rplus k) xs <> []) by (destruct xs; [congruence|discriminate]).
  pose proof (kernels_write_softmax_row output_ptr input_ptr
                input_row_stride output_row_stride BS row_idx
                (map (Rplus k) xs) s Hne' Hrow) as H.
  rewrite softmax_row_shift, length_map in H. exact H.
Qed.

Lemma shifted_ones_row_data (base : Z) :
  row_data (heap ones_state) base (map (Rplus 1) (repeat 0%R 3)).
Proof.
  intros j Hj. simpl in Hj. simpl heap.
  destruct j as [|[|[|j]]]; simpl; try (f_equal; lra). lia.
Defined.

Lemma kernels_shift_invariant_witness :
  row_written (heap (softmax_kernel 100 0 3 3 3 4 0 ones_state))
              100 3 0 (softmax_row (repeat 0%R 3))
  /\
  exists s',
    softmax_kernel_big_row 100 0 3 3 3 4 0 ones_state = Some s' /\
    row_written (heap s') 100 3 0 (softmax_row (repeat 0%R 3)).
Proof.
  destruct (kernels_shift_invariant 100 0 3 3 4 0 1%R (repeat 0%R 3)
              ones_state) as [Hsingle Hmulti].
  - discriminate.
  - apply shifted_ones_row_data.
  - split.
    + apply Hsingle. simpl. lia.
    + apply Hmulti; [cbv; discriminate|simpl; lia|apply ones_no_overlap].
Defined.

(* ================================================================= *)
(** ** Order preservation *)

Lemma softmax_ref_le_iff (xs : list R) (i j : nat) :
  xs <> [] ->
  (nth i xs 0 <= nth j xs 0)%R <->
  (softmax_ref xs i <= softmax_ref xs j)%R.
Proof.
  intros Hne. unfold softmax_ref.
  pose proof (sum_exp_pos xs (row_max xs) Hne) as HS.
  set (S := sum_exp xs (row_max xs)) in *.
  set (M := row_max xs).
  assert (Hinv : (0 < / S)%R) by (apply Rinv_0_lt_compat, HS).
  unfold Rdiv. split.
  - intros Hle. apply Rmult_le_compat_r; [lra|].
    destruct Hle as [Hlt|Heq].
    + left. apply exp_increasing. lra.
    + rewrite Heq. lra.
  - intros Hle. apply Rmult_le_reg_r in Hle; [|exact Hinv].
    destruct (Rle_lt_dec (nth i xs 0%R) (nth j xs 0%R)) as [H|H];
      [exact H|].
    assert (exp (nth j xs 0 - M) < exp (nth i xs 0 - M))%R
      by (apply exp_increasing; lra).
    lra.
Qed.

(** Both kernels preserve the order of the row: the value written at
    column [i] is at most the value written at column [j] exactly when
    the input at column [i] is at most the input at column [j]. So the
    largest inputs get the largest outputs. *)
Theorem kernels_preserve_order
        (output_ptr input_ptr input_row_stride output_row_stride : Z)
        (BS row_idx : Z) (xs : list R) (s : state) :
  xs <> [] ->
  row_data (heap s) (input_ptr + row_idx * input_row_stride) xs ->
  exists ps,
    length ps = length xs /\
    (forall i j, (i < length xs)%nat -> (j < length xs)%nat ->
                 (nth i xs 0 <= nth j xs 0)%R <->
                 (nth i ps 0 <= nth j ps 0)%R) /\
    (Z.of_nat (length xs) <= BS ->
     row_written
       (heap (softmax_kernel output_ptr input_ptr input_row_stride
                output_row_stride (Z.of_nat (length xs)) BS row_idx s))
       output_ptr output_row_stride row_idx ps) /\
    (1 <= BS / 2 ->
     Z.of_nat (length xs) <= 2 * (BS / 2) ->
     no_overlap output_ptr output_row_stride input_ptr input_row_stride
                row_idx (length xs) ->
     exists s',
       softmax_kernel_big_row output_ptr input_ptr input_row_stride
         output_row_stride (Z.of_nat (length xs)) BS row_idx s = Some s' /\
       row_written (heap s') output_ptr output_row_stride row_idx ps).
Proof.
  intros Hne Hrow. exists (softmax_row xs).
  split; [apply softmax_row_length|]. split.
  - intros i j Hi Hj. rewrite !nth_softmax_row by assumption.
    apply softmax_ref_le_iff, Hne.
  - apply kernels_write_softmax_row; assumption.
Qed.

Lemma kernels_preserve_order_witness :
  exists ps,
    length ps = 3%nat /\
    row_written (heap (softmax_kernel 100 0 3 3 3 4 0 ones_state))
                100 3 0 ps /\
    exists s',
      softmax_kernel_big_row 100 0 3 3 3 4 0 ones_state = Some s' /\
      row_written (heap s') 100 3 0 ps.
Proof.
  destruct (kernels_preserve_order 100 0 3 3 4 0 (repeat 1%R 3) ones_state)
    as (ps & Hlen & _ & Hsingle & Hmulti).
  - discriminate.
  - apply ones_row_data.
  - exists ps. split; [exact Hlen|]. split.
    + apply Hsingle. simpl. lia.
    + apply Hmulti; [cbv; discriminate|simpl; lia|apply ones_no_overlap].
Defined.

(* ================================================================= *)
(** ** Rows of arbitrary floats *)

Lemma gather_block_f (m : mem) (base : Z) (fs : list float) (b o : nat) :
  float_row_data m base fs ->
  tl.gather m (map (fun i => base + Z.of_nat i) (seq o b))
            (map (fun i => Z.of_nat i <? Z.of_nat (length fs)) (seq o b))
            NInf
  = fpad (firstn b (skipn o fs)) b.
Proof.
  intros Hrow. revert o. induction b as [|b IH]; intros o.
  - reflexivity.
  - simpl seq. simpl map. simpl tl.gather. rewrite IH.
    destruct (Z.ltb_spec (Z.of_nat o) (Z.of_nat (length fs))) as [Hlt|Hge].
    + rewrite (skipn_cons_nth NaN fs o) by lia. simpl firstn.
      unfold fpad. simpl. rewrite Hrow by lia. reflexivity.
    + rewrite (skipn_all2 fs (n:=o)) by lia.
      rewrite (skipn_all2 fs (n:=S o)) by lia.
      rewrite !firstn_nil. unfold fpad. simpl. rewrite Nat.sub_0_r.
      reflexivity.
Qed.

Lemma row_data_float (m : mem) (base : Z) (xs : list R) :
  row_data m base xs -> float_row_data m base (map Fin xs).
Proof.
  intros H j Hj. rewrite length_map in Hj. rewrite (H j Hj).
  rewrite (nth_indep _ NaN (Fin 0%R)) by (rewrite length_map; exact Hj).
  symmetry. apply (map_nth Fin).
Qed.

Lemma fpad_Fin (ys : list R) (b : nat) : fpad (map Fin ys) b = pad ys b.
Proof. unfold fpad, pad. rewrite length_map. reflexivity. Qed.

(** The block [softmax_kernel] loads, whatever floats the row holds and
    whether or not the row fits the block. *)
Lemma softmax_kernel_row_f
      (output_ptr input_ptr input_row_stride output_row_stride : Z)
      (BS row_idx : Z) (fs : list float) (s : state) :
  float_row_data (heap s) (input_ptr + row_idx * input_row_stride) fs ->
  k_row (softmax_kernel_locals output_ptr input_ptr input_row_stride
           output_row_stride (Z.of_nat (length fs)) BS row_idx s) =
  fpad (firstn (Z.to_nat BS) fs) (Z.to_nat BS).
Proof.
  intros Hrow. unfold softmax_kernel_locals, tl.load. simpl.
  rewrite add_int_arange0, lt_int_arange0.
  rewrite gather_block_f by exact Hrow. reflexivity.
Qed.

(** What [softmax_kernel] computes from the block it loaded, when the
    block holds the finite values [ys] and padding. *)
Lemma softmax_kernel_from_row
      (output_ptr input_ptr input_row_stride output_row_stride : Z)
      (n_cols BS row_idx : Z) (s : state) (ys : list R) :
  let l := softmax_kernel_locals output_ptr input_ptr input_row_stride
             output_row_stride n_cols BS row_idx s in
  k_row l = pad ys (Z.to_nat BS) ->
  ys <> [] ->
  k_max l = Fin (row_max ys) /\
  k_denominator l = Fin (sum_exp ys (row_max ys)) /\
  k_softmax_output l =
  map (fun y => Fin (exp (y - row_max ys) / sum_exp ys (row_max ys))) ys
      ++ repeat (Fin (0 / sum_exp ys (row_max ys)))
                (Z.to_nat BS - length ys).
Proof.
  intros l Hr Hne.
  assert (Hmax : k_max l = Fin (row_max ys)).
  { change (k_max l) with (tl.max (k_row l)). rewrite Hr, max_pad.
    apply max_Fin, Hne. }
  assert (Hnum : k_numerator l =
                 map (fun y => Fin (exp (y - row_max ys))) ys
                     ++ repeat (Fin 0%R) (Z.to_nat BS - length ys)).
  { change (k_numerator l)
      with (tl.exp (tl.sub_scalar (k_row l) (k_max l))).
    rewrite Hmax, Hr. apply exp_sub_pad. }
  assert (Hden : k_denominator l = Fin (sum_exp ys (row_max ys))).
  { change (k_denominator l) with (tl.sum (k_numerator l)).
    rewrite Hnum. apply sum_numerators. }
  split; [exact Hmax|]. split; [exact Hden|].
  change (k_softmax_output l)
    with (tl.div_scalar (k_numerator l) (k_denominator l)).
  rewrite Hnum, Hden. apply div_numerators.
  pose proof (sum_exp_pos ys (row_max ys) Hne). lra.
Qed.

(* ================================================================= *)
(** ** A block smaller than the row *)

(** When [BLOCK_SIZE] is smaller than the row, [softmax_kernel] neither
    fails nor reads past its block: it writes, at the first [BLOCK_SIZE]
    columns, the softmax of the first [BLOCK_SIZE] elements alone, and
    leaves the remaining columns of the output row as they were. *)
Theorem softmax_kernel_truncates
        (output_ptr input_ptr input_row_stride output_row_stride : Z)
        (BS row_idx : Z) (xs : list R) (s : state) :
  row_data (heap s) (input_ptr + row_idx * input_row_stride) xs ->
  1 <= BS -> BS < Z.of_nat (length xs) ->
  let s' := softmax_kernel output_ptr input_ptr input_row_stride
              output_row_stride (Z.of_nat (length xs)) BS row_idx s in
  (forall c, Z.of_nat c < BS ->
     heap s' (addr output_ptr output_row_stride row_idx c) =
     Fin (softmax_ref (firstn (Z.to_nat BS) xs) c)) /\
  (forall c, BS <= Z.of_nat c ->
     heap s' (addr output_ptr output_row_stride row_idx c) =
     heap s (addr output_ptr output_row_stride row_idx c)).
Proof.
  intros Hrow HBS Hlt s'. subst s'.
  set (b := Z.to_nat BS). set (ys := firstn b xs).
  assert (Hlen : length ys = b).
  { unfold ys. rewrite length_firstn. lia. }
  assert (Hne : ys <> []) by (intros E; rewrite E in Hlen; simpl in Hlen; lia).
  pose proof (softmax_kernel_row_f output_ptr input_ptr input_row_stride
                output_row_stride BS row_idx (map Fin xs) s
                (row_data_float _ _ _ Hrow)) as Hr.
  rewrite length_map, firstn_map, fpad_Fin in Hr. fold b ys in Hr.
  destruct (softmax_kernel_from_row _ _ _ _ _ _ _ _ ys Hr Hne)
    as (_ & _ & Hout).
  split.
  - intros c Hc. rewrite softmax_kernel_heap. unfold addr.
    rewrite (scatter_inside _ _ NaN b 0).
    + rewrite Hout, Nat.sub_0_r. fold b. apply nth_quotients. lia.
    + rewrite Hout. fold b. apply quotients_length. lia.
    + lia.
    + lia.
  - intros c Hc. rewrite softmax_kernel_heap. unfold addr.
    apply scatter_outside. intros i Hi _. lia.
Qed.

Lemma softmax_kernel_truncates_witness :
  let s' := softmax_kernel 100 0 3 3 3 2 0 ones_state in
  heap s' (addr 100 3 0 1) = Fin (softmax_ref (repeat 1%R 2) 1) /\
  heap s' (addr 100 3 0 2) = heap ones_state (addr 100 3 0 2).
Proof.
  destruct (softmax_kernel_truncates 100 0 3 3 2 0 (repeat 1%R 3)
              ones_state (ones_row_data _ 3)) as [Hin Hout].
  - lia.
  - simpl. lia.
  - intros s'. split.
    + apply (Hin 1%nat). lia.
    + apply (Hout 2%nat). lia.
Defined.

(* ================================================================= *)
(** ** Rows that are not finite *)

Lemma max_has_PInf (l : list float) : In PInf l -> tl.max l = PInf.
Proof.
  unfold tl.max. induction l as [|v t IH]; intros Hin; [contradiction|].
  simpl. destruct Hin as [->|Hin].
  - destruct (fold_right fmax NInf t); reflexivity.
  - rewrite IH by exact Hin. destruct v; reflexivity.
Qed.

Lemma max_all_NInf (l : list float) :
  (forall v, In v l -> v = NInf) -> tl.max l = NInf.
Proof.
  unfold tl.max. induction l as [|v t IH]; intros H; [reflexivity|].
  simpl. rewrite IH by (intros w Hw; apply H; right; exact Hw).
  rewrite (H v (or_introl eq_refl)). reflexivity.
Qed.

Lemma sum_has_NaN (l : list float) : In NaN l -> tl.sum l = NaN.
Proof.
  unfold tl.sum. induction l as [|v t IH]; intros Hin; [contradiction|].
  simpl. destruct Hin as [->|Hin]; [reflexivity|].
  rewrite IH by exact Hin. destruct v; reflexivity.
Qed.

Lemma div_by_NaN (l : list float) :
  tl.div_scalar l NaN = repeat NaN (length l).
Proof.
  unfold tl.div_scalar. induction l as [|v t IH]; [reflexivity|].
  simpl. rewrite IH. destruct v; reflexivity.
Qed.

(** A NaN among the numerators of a block that holds a NaN, a +inf, or
    nothing but -inf. *)
Lemma numerators_have_NaN (row : list float) :
  In NaN row \/ In PInf row \/
  (row <> [] /\ forall v, In v row -> v = NInf) ->
  In NaN (tl.exp (tl.sub_scalar row (tl.max row))).
Proof.
  assert (Hmap : forall v m, In v row ->
            In (fexp (fsub v m)) (tl.exp (tl.sub_scalar row m))).
  { intros v m Hv. unfold tl.exp, tl.sub_scalar. rewrite map_map.
    apply (in_map (fun x => fexp (fsub x m))), Hv. }
  intros [Hnan|[Hinf|[Hne Hall]]].
  - replace NaN with (fexp (fsub NaN (tl.max row)))
      by (destruct (tl.max row); reflexivity).
    apply Hmap, Hnan.
  - rewrite (max_has_PInf row Hinf).
    change NaN with (fexp (fsub PInf PInf)). apply Hmap, Hinf.
  - rewrite (max_all_NInf row Hall).
    change NaN with (fexp (fsub NInf NInf)). apply Hmap.
    destruct row as [|v t]; [congruence|].
    rewrite <- (Hall v (or_introl eq_refl)). left. reflexivity.
Qed.

(** If a row that fits the block holds a NaN or a +inf, or holds nothing
    but -inf, then [softmax_kernel] writes NaN at every in-range
    column: the difference with the maximum is NaN at one position, so
    the sum is NaN and so is every quotient. *)
Theorem softmax_kernel_not_finite
        (output_ptr input_ptr input_row_stride output_row_stride : Z)
        (BS row_idx : Z) (fs : list float) (s : state) :
  float_row_data (heap s) (input_ptr + row_idx * input_row_stride) fs ->
  Z.of_nat (length fs) <= BS ->
  In NaN fs \/ In PInf fs \/ (fs <> [] /\ forall v, In v fs -> v = NInf) ->
  forall c, (c < length fs)%nat ->
    heap (softmax_kernel output_ptr input_ptr input_row_stride
            output_row_stride (Z.of_nat (length fs)) BS row_idx s)
         (addr output_ptr output_row_stride row_idx c) = NaN.
Proof.
  intros Hrow Hfit Hbad c Hc.
  set (l := softmax_kernel_locals output_ptr input_ptr input_row_stride
              output_row_stride (Z.of_nat (length fs)) BS row_idx s).
  pose proof (softmax_kernel_row_f output_ptr input_ptr input_row_stride
                output_row_stride BS row_idx fs s Hrow) as Hr.
  fold l in Hr. rewrite firstn_all2 in Hr by lia.
  assert (Hrowlen : length (k_row l) = Z.to_nat BS).
  { rewrite Hr. unfold fpad. rewrite length_app, repeat_length. lia. }
  assert (Hbad' : In NaN (k_row l) \/ In PInf (k_row l) \/
                  (k_row l <> [] /\ forall v, In v (k_row l) -> v = NInf)).
  { rewrite Hr. unfold fpad.
    destruct Hbad as [H|[H|[Hne Hall]]].
    - left. apply in_or_app. left. exact H.
    - right. left. apply in_or_app. left. exact H.
    - right. right. split.
      + destruct fs; [congruence|discriminate].
      + intros v Hv. apply in_app_or in Hv. destruct Hv as [Hv|Hv].
        * apply Hall, Hv.
        * apply repeat_spec in Hv. exact Hv. }
  assert (Hden : k_denominator l = NaN).
  { change (k_denominator l)
      with (tl.sum (tl.exp (tl.sub_scalar (k_row l) (tl.max (k_row l))))).
    apply sum_has_NaN, numerators_have_NaN, Hbad'. }
  assert (Hout : k_softmax_output l = repeat NaN (Z.to_nat BS)).
  { change (k_softmax_output l)
      with (tl.div_scalar (k_numerator l) (k_denominator l)).
    rewrite Hden, div_by_NaN. f_equal.
    change (k_numerator l)
      with (tl.exp (tl.sub_scalar (k_row l) (k_max l))).
    unfold tl.exp, tl.sub_scalar. rewrite !length_map. exact Hrowlen. }
  rewrite softmax_kernel_heap. fold l. unfold addr.
  rewrite (scatter_inside _ _ NaN (Z.to_nat BS) 0).
  - rewrite Hout. apply nth_repeat.
  - rewrite Hout. apply repeat_length.
  - lia.
  - lia.
Qed.

Lemma inf_row_data (base : Z) (n : nat) :
  float_row_data (heap inf_state) base (repeat PInf n).
Proof.
  intros j Hj. rewrite repeat_length in Hj. simpl.
  rewrite (nth_indep _ NaN PInf) by (rewrite repeat_length; exact Hj).
  rewrite nth_repeat. reflexivity.
Defined.

Lemma softmax_kernel_not_finite_witness :
  heap (softmax_kernel 100 0 3 3 3 4 0 inf_state) (addr 100 3 0 1) = NaN.
Proof.
  apply (softmax_kernel_not_finite 100 0 3 3 4 0 (repeat PInf 3) inf_state
           (inf_row_data _ 3)).
  - simpl. lia.
  - right. left. left. reflexivity.
  - simpl. lia.
Defined.

(* ================================================================= *)
(** ** What the kernels read *)

Lemma gather_agree (m1 m2 : mem) (base n : Z) (b : nat) :
  forall o,
    (forall i, (o <= i < o + b)%nat -> Z.of_nat i < n ->
               m1 (base + Z.of_nat i) = m2 (base + Z.of_nat i)) ->
    tl.gather m1 (map (fun i => base + Z.of_nat i) (seq o b))
              (map (fun i => Z.of_nat i <? n) (seq o b)) NInf =
    tl.gather m2 (map (fun i => base + Z.of_nat i) (seq o b))
              (map (fun i => Z.of_nat i <? n) (seq o b)) NInf.
Proof.
  induction b as [|b IH]; intros o H; [reflexivity|].
  simpl. rewrite (IH (S o)) by (intros i Hi; apply H; lia).
  destruct (Z.ltb_spec (Z.of_nat o) n) as [Hlt|_]; [|reflexivity].
  rewrite (H o) by lia. reflexivity.
Qed.

Lemma gather_length (m : mem) (base n : Z) (b o : nat) :
  length (tl.gather m (map (fun i => base + Z.of_nat i) (seq o b))
                    (map (fun i => Z.of_nat i <? n) (seq o b)) NInf) = b.
Proof.
  revert o. induction b as [|b IH]; intros o; [reflexivity|].
  simpl. rewrite IH. reflexivity.
Qed.

Lemma scatter_agree (ptrs : list Z) (a : Z) :
  forall (vals : list float) (mask : list bool) (m1 m2 : mem),
    m1 a = m2 a ->
    tl.scatter m1 ptrs vals mask a = tl.scatter m2 ptrs vals mask a.
Proof.
  induction ptrs as [|p ps IH]; intros vals mask m1 m2 H; [exact H|].
  destruct vals as [|v vs]; [exact H|].
  destruct mask as [|c cs]; [exact H|].
  simpl. apply IH. destruct c; [|exact H].
  unfold upd. destruct (a =? p); [reflexivity|exact H].
Qed.

Lemma load_block_agree (m1 m2 : mem) (base cs B n : Z) :
  0 <= cs ->
  (forall j, cs <= j < cs + B -> j < n -> m1 (base + j) = m2 (base + j)) ->
  load_block m1 base cs B n = load_block m2 base cs B n.
Proof.
  intros Hcs H. unfold load_block, block_ptrs.
  rewrite add_int_arange, lt_int_arange by exact Hcs.
  apply gather_agree. intros i Hi Hlt. apply H; lia.
Qed.

Lemma load_block_length (m : mem) (base cs B n : Z) :
  0 <= cs -> length (load_block m base cs B n) = Z.to_nat B.
Proof.
  intros Hcs. unfold load_block, block_ptrs.
  rewrite add_int_arange, lt_int_arange by exact Hcs.
  apply gather_length.
Qed.

Lemma quotient_block_length (blk : list float) (m d : float) :
  length (tl.div_scalar (tl.exp (tl.sub_scalar blk m)) d) = length blk.
Proof.
  unfold tl.div_scalar, tl.exp, tl.sub_scalar. rewrite !length_map.
  reflexivity.
Qed.

(** The kernels read the input row at its in-range columns and nowhere
    else. Run on two memories that agree at the in-range columns of the
    input row that the blocks cover, with any floats there and any
    layout of the two tensors, each kernel computes the same maximum and
    the same sum, writes the same values at the in-range columns of the
    output row, and keeps the two memories equal wherever they were
    equal. *)
Theorem kernels_read_only_in_range
        (output_ptr input_ptr input_row_stride output_row_stride : Z)
        (n_cols BS row_idx : Z) (s1 s2 : state) :
  let in_row := input_ptr + row_idx * input_row_stride in
  let out_row := output_ptr + row_idx * output_row_stride in
  ((forall j, 0 <= j < n_cols -> j < BS ->
              heap s1 (in_row + j) = heap s2 (in_row + j)) ->
   let l1 := softmax_kernel_locals output_ptr input_ptr input_row_stride
               output_row_stride n_cols BS row_idx s1 in
   let l2 := softmax_kernel_locals output_ptr input_ptr input_row_stride
               output_row_stride n_cols BS row_idx s2 in
   k_max l1 = k_max l2 /\ k_denominator l1 = k_denominator l2 /\
   (forall a, heap s1 a = heap s2 a ->
              heap (k_final l1) a = heap (k_final l2) a) /\
   (forall c, 0 <= c < n_cols -> c < BS ->
              heap (k_final l1) (out_row + c) =
              heap (k_final l2) (out_row + c)))
  /\
  (1 <= BS / 2 ->
   (forall j, 0 <= j < n_cols -> j < 2 * (BS / 2) ->
              heap s1 (in_row + j) = heap s2 (in_row + j)) ->
   exists l1 l2,
     softmax_kernel_big_row_locals output_ptr input_ptr input_row_stride
       output_row_stride n_cols BS row_idx s1 = Some l1 /\
     softmax_kernel_big_row_locals output_ptr input_ptr input_row_stride
       output_row_stride n_cols BS row_idx s2 = Some l2 /\
     b_tl_max l1 = b_tl_max l2 /\ b_tl_sum l1 = b_tl_sum l2 /\
     (forall a, heap s1 a = heap s2 a ->
                heap (b_final l1) a = heap (b_final l2) a) /\
     (forall c, 0 <= c < n_cols -> c < 2 * (BS / 2) ->
                heap (b_final l1) (out_row + c) =
                heap (b_final l2) (out_row + c))).
Proof.
  intros in_row out_row. split.
  - intros Hagree l1 l2.
    assert (Hrow : k_row l1 = k_row l2).
    { unfold l1, l2, softmax_kernel_locals, tl.load. simpl.
      rewrite add_int_arange0, lt_int_arange0.
      apply gather_agree. intros i Hi Hlt. apply Hagree; lia. }
    assert (Hout : k_softmax_output l1 = k_softmax_output l2).
    { change (k_softmax_output l1)
        with (tl.div_scalar
                (tl.exp (tl.sub_scalar (k_row l1) (tl.max (k_row l1))))
                (tl.sum (tl.exp (tl.sub_scalar (k_row l1)
                                               (tl.max (k_row l1)))))).
      rewrite Hrow. reflexivity. }
    assert (Hlen : length (k_softmax_output l2) = Z.to_nat BS).
    { change (k_softmax_output l2)
        with (tl.div_scalar
                (tl.exp (tl.sub_scalar (k_row l2) (tl.max (k_row l2))))
                (k_denominator l2)).
      rewrite quotient_block_length.
      unfold l2, softmax_kernel_locals, tl.load. simpl.
      rewrite add_int_arange0, lt_int_arange0. apply gather_length. }
    split; [change (tl.max (k_row l1) = tl.max (k_row l2));
            rewrite Hrow; reflexivity|].
    split; [change (tl.sum (tl.exp (tl.sub_scalar (k_row l1)
                                                  (tl.max (k_row l1)))) =
                    tl.sum (tl.exp (tl.sub_scalar (k_row l2)
                                                  (tl.max (k_row l2)))));
            rewrite Hrow; reflexivity|].
    change (k_final l1)
      with (softmax_kernel output_ptr input_ptr input_row_stride
              output_row_stride n_cols BS row_idx s1).
    change (k_final l2)
      with (softmax_kernel output_ptr input_ptr input_row_stride
              output_row_stride n_cols BS row_idx s2).
    rewrite !softmax_kernel_heap. fold l1 l2. rewrite Hout. split.
    + intros a Ha. apply scatter_agree, Ha.
    + intros c Hc HcB. fold out_row.
      replace c with (Z.of_nat (Z.to_nat c)) by lia.
      rewrite !(scatter_inside _ _ NaN (Z.to_nat BS) 0) by
        (try exact Hlen; lia).
      reflexivity.
  - intros HB Hagree.
    rewrite !big_row_unrolled by exact HB. cbv zeta.
    fold in_row out_row.
    set (B := BS / 2) in *.
    assert (H0 : load_block (heap s1) in_row 0 B n_cols =
                 load_block (heap s2) in_row 0 B n_cols).
    { apply load_block_agree; [lia|]. intros j Hj Hlt. apply Hagree; lia. }
    assert (H1 : load_block (heap s1) in_row B B n_cols =
                 load_block (heap s2) in_row B B n_cols).
    { apply load_block_agree; [lia|]. intros j Hj Hlt. apply Hagree; lia. }
    rewrite H0, H1.
    set (t0 := load_block (heap s2) in_row 0 B n_cols).
    set (t1 := load_block (heap s2) in_row B B n_cols).
    set (tl_max := fmax (fmax NInf (tl.max t0)) (tl.max t1)).
    set (tl_sum := fadd (tl.sum (tl.exp (tl.sub_scalar t1 tl_max)))
                        (tl.sum (tl.exp (tl.sub_scalar t0 tl_max)))).
    set (out0 := tl.div_scalar (tl.exp (tl.sub_scalar t0 tl_max)) tl_sum).
    rewrite add_int_arange0, lt_int_arange0.
    set (optrs0 := map (fun i => out_row + Z.of_nat i) (seq 0 (Z.to_nat B))).
    set (mask0 := map (fun i => Z.of_nat i <? n_cols) (seq 0 (Z.to_nat B))).
    assert (H1' : load_block (tl.scatter (heap s1) optrs0 out0 mask0)
                             in_row B B n_cols =
                  load_block (tl.scatter (heap s2) optrs0 out0 mask0)
                             in_row B B n_cols).
    { apply load_block_agree; [lia|]. intros j Hj Hlt.
      apply scatter_agree, Hagree; lia. }
    rewrite H1'.
    set (t1' := load_block (tl.scatter (heap s2) optrs0 out0 mask0)
                           in_row B B n_cols).
    set (out1 := tl.div_scalar (tl.exp (tl.sub_scalar t1' tl_max)) tl_sum).
    unfold block_ptrs. rewrite !add_int_arange, !lt_int_arange by lia.
    eexists. eexists. split; [reflexivity|]. split; [reflexivity|].
    cbn [b_tl_max b_tl_sum b_final heap].
    split; [reflexivity|]. split; [reflexivity|].
    assert (Hlen0 : length out0 = Z.to_nat B).
    { unfold out0. rewrite quotient_block_length.
      apply load_block_length. lia. }
    assert (Hlen1 : length out1 = Z.to_nat B).
    { unfold out1. rewrite quotient_block_length.
      apply load_block_length. lia. }
    split.
    + intros a Ha. apply scatter_agree, scatter_agree, Ha.
    + intros c Hc HcB.
      replace c with (Z.of_nat (Z.to_nat c)) by lia.
      destruct (Z.lt_ge_cases c B) as [Hlt|Hge].
      * rewrite !scatter_outside by (intros i Hi _; lia).
        unfold optrs0, mask0.
        rewrite !(scatter_inside _ _ NaN (Z.to_nat B) 0)
          by (try exact Hlen0; lia).
        reflexivity.
      * rewrite !(scatter_inside _ _ NaN (Z.to_nat B) (Z.to_nat B))
          by (try exact Hlen1; lia).
        reflexivity.
Qed.

Lemma ones_sevens_agree (j : Z) :
  0 <= j < 3 -> heap ones_state (0 + 0 * 3 + j) =
                heap sevens_state (0 + 0 * 3 + j).
Proof.
  intros Hj. simpl. destruct (Z.ltb_spec j 3); [reflexivity|lia].
Defined.

Lemma kernels_read_only_in_range_witness :
  (let l1 := softmax_kernel_locals 100 0 3 3 3 4 0 ones_state in
   let l2 := softmax_kernel_locals 100 0 3 3 3 4 0 sevens_state in
   k_denominator l1 = k_denominator l2 /\
   heap (k_final l1) (100 + 0 * 3 + 2) = heap (k_final l2) (100 + 0 * 3 + 2))
  /\
  exists l1 l2,
    softmax_kernel_big_row_locals 100 0 3 3 3 4 0 ones_state = Some l1 /\
    softmax_kernel_big_row_locals 100 0 3 3 3 4 0 sevens_state = Some l2 /\
    heap (b_final l1) (100 + 0 * 3 + 2) = heap (b_final l2) (100 + 0 * 3 + 2).
Proof.
  destruct (kernels_read_only_in_range 100 0 3 3 3 4 0 ones_state
              sevens_state) as [Hsingle Hmulti].
  split.
  - destruct Hsingle as (_ & Hd & _ & Hv).
    + intros j Hj _. apply ones_sevens_agree, Hj.
    + intros l1 l2. split; [exact Hd|]. apply Hv; lia.
  - destruct Hmulti as (l1 & l2 & H1 & H2 & _ & _ & _ & Hv).
    + cbv. discriminate.
    + intros j Hj _. apply ones_sevens_agree, Hj.
    + exists l1, l2. split; [exact H1|]. split; [exact H2|].
      apply Hv; [lia|]. cbv. reflexivity.
Defined.

(* ================================================================= *)
(** ** Overlapping tensors *)

(** The only load [softmax_kernel_big_row] issues after a store is the
    reload of block 1, after the store of block 0. So the kernel is right
    as soon as the in-range columns of output block 0 are no in-range
    columns of input block 1. *)
Lemma big_row_value_weak
      (output_ptr input_ptr input_row_stride output_row_stride : Z)
      (BS row_idx : Z) (xs : list R) (s : state) :
  1 <= BS / 2 ->
  Z.of_nat (length xs) <= 2 * (BS / 2) ->
  xs <> [] ->
  row_data (heap s) (input_ptr + row_idx * input_row_stride) xs ->
  (forall c c', Z.of_nat c < BS / 2 -> BS / 2 <= Z.of_nat c' ->
                (c < length xs)%nat -> (c' < length xs)%nat ->
                addr output_ptr output_row_stride row_idx c <>
                addr input_ptr input_row_stride row_idx c') ->
  exists s',
    softmax_kernel_big_row output_ptr input_ptr input_row_stride
      output_row_stride (Z.of_nat (length xs)) BS row_idx s = Some s' /\
    forall c, (c < length xs)%nat ->
              heap s' (addr output_ptr output_row_stride row_idx c) =
              Fin (softmax_ref xs c).
Proof.
  intros HB Hfit Hne Hrow Hdisj.
  unfold softmax_kernel_big_row. rewrite big_row_unrolled by exact HB.
  cbv zeta.
  rewrite (br_tile1 0 input_ptr input_row_stride 0 BS row_idx xs HB Hfit
             (heap s) Hrow).
  assert (H0 : load_block (heap s) (input_ptr + row_idx * input_row_stride)
                          0 (BS / 2) (Z.of_nat (length xs)) =
               pad (firstn (Z.to_nat (BS / 2)) xs) (Z.to_nat (BS / 2))).
  { rewrite load_block_pad by (trivial; lia). reflexivity. }
  rewrite H0, br_max by exact Hne. rewrite br_sum, !br_quot by exact Hne.
  rewrite add_int_arange0, lt_int_arange0.
  match goal with
  | |- context [load_block ?h1 ?base ?cs ?B ?n] =>
      assert (H1 : load_block h1 base cs B n =
                   pad (skipn (Z.to_nat (BS / 2)) xs) (Z.to_nat (BS / 2)))
  end.
  { rewrite <- (br_tile1 0 input_ptr input_row_stride 0 BS row_idx xs HB
                  Hfit (heap s) Hrow).
    apply load_block_agree; [lia|]. intros j Hj Hlt.
    replace j with (Z.of_nat (Z.to_nat j)) by lia.
    apply scatter_outside. intros i Hi Hi' He.
    apply (Hdisj i (Z.to_nat j)); try lia. unfold addr. lia. }
  rewrite H1, br_quot by exact Hne.
  unfold block_ptrs at 1. rewrite add_int_arange, lt_int_arange by lia.
  simpl option_map. eexists. split; [reflexivity|].
  intros c Hc. simpl heap.
  apply (br_value output_ptr 0 0 output_row_stride BS row_idx xs s HB Hfit
           c Hc).
Qed.

(** Both kernels can run in place, with the output tensor at the address
    and with the stride of the input tensor: the row is replaced by its
    softmax. *)
Theorem kernels_run_in_place
        (ptr row_stride BS row_idx : Z) (xs : list R) (s : state) :
  xs <> [] ->
  row_data (heap s) (ptr + row_idx * row_stride) xs ->
  (Z.of_nat (length xs) <= BS ->
   row_written
     (heap (softmax_kernel ptr ptr row_stride row_stride
              (Z.of_nat (length xs)) BS row_idx s))
     ptr row_stride row_idx (softmax_row xs))
  /\
  (1 <= BS / 2 ->
   Z.of_nat (length xs) <= 2 * (BS / 2) ->
   exists s',
     softmax_kernel_big_row ptr ptr row_stride row_stride
       (Z.of_nat (length xs)) BS row_idx s = Some s' /\
     row_written (heap s') ptr row_stride row_idx (softmax_row xs)).
Proof.
  intros Hne Hrow. split.
  - intros Hfit. apply softmax_kernel_writes_row; assumption.
  - intros HB Hfit.
    destruct (big_row_value_weak ptr ptr row_stride row_stride BS row_idx
                xs s HB Hfit Hne Hrow) as (s' & Hrun & Hval).
    { intros c c' Hc Hc' _ _. unfold addr. lia. }
    exists s'. split; [exact Hrun|]. intros c Hc.
    rewrite softmax_row_length in Hc.
    rewrite nth_softmax_row by exact Hc. apply Hval, Hc.
Qed.

Lemma kernels_run_in_place_witness :
  row_written (heap (softmax_kernel 0 0 3 3 3 4 0 ones_state)) 0 3 0
              (softmax_row (repeat 1%R 3))
  /\
  exists s',
    softmax_kernel_big_row 0 0 3 3 3 4 0 ones_state = Some s' /\
    row_written (heap s') 0 3 0 (softmax_row (repeat 1%R 3)).
Proof.
  destruct (kernels_run_in_place 0 3 4 0 (repeat 1%R 3) ones_state)
    as [Hsingle Hmulti].
  - discriminate.
  - apply ones_row_data.
  - split.
    + apply Hsingle. simpl. lia.
    + apply Hmulti; [cbv; discriminate|simpl; lia].
Defined.

(** The condition on [softmax_kernel_big_row] cannot be dropped. With
    the output tensor one element after the input tensor, the stored
    block 0 of a row of two ones overwrites column 1 of the input:
    [softmax_kernel], which stores after its only load, still writes the
    softmax at column 1, and [softmax_kernel_big_row], which reloads
    block 1 after that store, writes another value there. *)
Theorem big_row_overlap_goes_wrong :
  row_data (heap ones_state) (0 + 0 * 2) (repeat 1%R 2) /\
  heap (softmax_kernel 1 0 2 2 2 2 0 ones_state) (addr 1 2 0 1) =
  Fin (softmax_ref (repeat 1%R 2) 1) /\
  exists s',
    softmax_kernel_big_row 1 0 2 2 2 2 0 ones_state = Some s' /\
    heap s' (addr 1 2 0 1) <> Fin (softmax_ref (repeat 1%R 2) 1).
Proof.
  assert (HB : 1 <= 2 / 2) by (cbv; discriminate).
  assert (Hfit : Z.of_nat (length (repeat 1%R 2)) <= 2 * (2 / 2))
    by (simpl; lia).
  assert (Hne : repeat 1%R 2 <> []) by discriminate.
  pose proof (ones_row_data (0 + 0 * 2) 2) as Hrow.
  split; [exact Hrow|]. split.
  - apply (sk_value 1 0 2 2 2 0 (repeat 1%R 2) ones_state Hrow);
      simpl; lia.
  - unfold softmax_kernel_big_row.
    change 2 with (Z.of_nat (length (repeat 1%R 2))) at 3.
    rewrite big_row_unrolled by exact HB. cbv zeta.
    rewrite (br_tile1 0 0 2 0 2 0 (repeat 1%R 2) HB Hfit (heap ones_state)
               Hrow).
    assert (H0 : load_block (heap ones_state) (0 + 0 * 2) 0 (2 / 2)
                            (Z.of_nat (length (repeat 1%R 2))) =
                 pad (firstn (Z.to_nat (2 / 2)) (repeat 1%R 2))
                     (Z.to_nat (2 / 2))).
    { rewrite load_block_pad by (trivial; lia). reflexivity. }
    rewrite H0, br_max by exact Hne. rewrite br_sum, !br_quot by exact Hne.
    rewrite row_max_repeat, sum_exp_repeat.
    eexists. split; [reflexivity|].
    unfold load_block, block_ptrs, tl.add_int, tl.arange, tl.lt_int, addr,
      tl.div_scalar, tl.exp, tl.sub_scalar.
    rewrite (softmax_ref_uniform 1 2 1) by lia.
    simpl. unfold upd. simpl.
    destruct (Req_dec_T (1 + 1) 0) as [E|_]; [lra|].
    intros H. injection H as H.
    replace (1 - 1)%R with 0%R in H by lra. rewrite exp_0 in H.
    assert (He : exp (1 / (1 + 1) - 1) = exp 0).
    { rewrite exp_0. lra. }
    apply exp_inv in He. lra.
Qed.

(* ================================================================= *)
(** ** The configuration by the number of columns *)

Lemma next_power_of_2_ge_pow2_iff (N j : Z) :
  0 <= j -> (2 ^ (j + 1) <= next_power_of_2 N <-> 2 ^ j < N).
Proof.
  intros Hj. split.
  - intros H. destruct (Z.lt_ge_cases (2 ^ j) N) as [|Hle]; [assumption|].
    pose proof (next_power_of_2_least N j Hj Hle) as Hl.
    assert (2 ^ j < 2 ^ (j + 1)) by (apply Z.pow_lt_mono_r; lia).
    lia.
  - intros H. pose proof (next_power_of_2_ge N) as Hge.
    destruct (next_power_of_2_pow2 N) as (e & He & Heq).
    rewrite Heq in *.
    assert (Hlt : 2 ^ j < 2 ^ e) by lia.
    apply Z.pow_lt_mono_r_iff in Hlt; [|lia|lia].
    apply Z.pow_le_mono_r; lia.
Qed.

Lemma next_power_of_2_ge_8096_iff (N : Z) :
  8096 <= next_power_of_2 N <-> 4096 < N.
Proof.
  rewrite <- (next_power_of_2_ge_pow2_iff N 12) by lia.
  change (2 ^ (12 + 1)) with 8192. split; [|lia].
  intros H. destruct (next_power_of_2_pow2 N) as (e & He & Heq).
  rewrite Heq in *.
  assert (Hlt : 2 ^ 12 < 2 ^ e) by (change (2 ^ 12) with 4096; lia).
  apply Z.pow_lt_mono_r_iff in Hlt; [|lia|lia].
  change 8192 with (2 ^ 13). apply Z.pow_le_mono_r; lia.
Qed.

(** The configuration in terms of the number of columns N: [num_warps] is
    4 up to 1024 columns, 8 up to 2048, 16 up to 4096 and 32 beyond
    (the threshold 8096 on a power of two acts as 8192), and
    [softmax_kernel_big_row] is enqueued exactly for more than 32768
    columns, always with 32 warps. *)
Theorem configuration_by_columns (N : Z) :
  num_warps (softmax_config N) =
  (if N <=? 1024 then 4
   else if N <=? 2048 then 8
        else if N <=? 4096 then 16 else 32)
  /\
  (k (softmax_config N) = k_softmax_kernel_big_row <-> 32768 < N)
  /\
  (k (softmax_config N) = k_softmax_kernel_big_row ->
   num_warps (softmax_config N) = 32).
Proof.
  pose proof (next_power_of_2_ge_pow2_iff N 10 ltac:(lia)) as H2048.
  pose proof (next_power_of_2_ge_pow2_iff N 11 ltac:(lia)) as H4096.
  pose proof (next_power_of_2_ge_8096_iff N) as H8096.
  pose proof (next_power_of_2_ge_pow2_iff N 15 ltac:(lia)) as H64k.
  change (2 ^ (10 + 1)) with 2048 in H2048. change (2 ^ 10) with 1024 in H2048.
  change (2 ^ (11 + 1)) with 4096 in H4096. change (2 ^ 11) with 2048 in H4096.
  change (2 ^ (15 + 1)) with 65536 in H64k.
  change (2 ^ 15) with 32768 in H64k.
  unfold softmax_config. cbn [num_warps k].
  set (b := next_power_of_2 N) in *.
  assert (Hw : choose_num_warps b =
               if N <=? 1024 then 4
               else if N <=? 2048 then 8
                    else if N <=? 4096 then 16 else 32).
  { unfold choose_num_warps. cbv zeta.
    destruct (Z.leb_spec 2048 b), (Z.leb_spec 4096 b), (Z.leb_spec 8096 b),
      (Z.leb_spec N 1024), (Z.leb_spec N 2048), (Z.leb_spec N 4096);
      try reflexivity; lia. }
  assert (Hk : choose_kernel b = k_softmax_kernel_big_row <-> 32768 < N).
  { destruct (choose_kernel_cases b) as [[Hb Hc]|[Hb Hc]]; rewrite Hc.
    - split; [discriminate|lia].
    - split; [lia|reflexivity]. }
  split; [exact Hw|]. split; [exact Hk|].
  intros Hbig. apply Hk in Hbig. rewrite Hw.
  destruct (Z.leb_spec N 1024), (Z.leb_spec N 2048), (Z.leb_spec N 4096);
    try reflexivity; lia.
Qed.

Lemma configuration_by_columns_witness :
  num_warps (softmax_config (64 * 1024 + 11)) = 32.
Proof.
  destruct (configuration_by_columns (64 * 1024 + 11)) as (_ & _ & H).
  apply H. vm_compute. reflexivity.
Defined.

(* ================================================================= *)
(** ** The whole launch on any memory *)

Lemma config_big_row_half (N : Z) :
  k (softmax_config N) = k_softmax_kernel_big_row ->
  1 <= BLOCK_SIZE (softmax_config N) / 2.
Proof.
  unfold softmax_config. cbn [BLOCK_SIZE k]. intros Hk.
  destruct (choose_kernel_cases (next_power_of_2 N)) as [[_ H]|[H _]];
    [congruence|].
  apply Z.div_le_lower_bound; lia.
Qed.

(** One instance returns, logs its events and changes nothing outside
    the in-range columns of its output row. *)
Lemma run_instance_frame_trace (N y x x_stride y_stride row_idx : Z)
      (s : state) :
  exists s',
    run_instance (softmax_config N) y x x_stride y_stride N row_idx s
    = Some s' /\
    trace s' = trace s ++ instance_events (softmax_config N) y x x_stride
                                          y_stride row_idx /\
    forall a, ~ in_row_range y y_stride row_idx N a -> heap s' a = heap s a.
Proof.
  unfold run_instance, instance_events.
  destruct (k (softmax_config N)) eqn:Hk.
  - eexists. split; [reflexivity|]. split.
    + apply softmax_kernel_trace.
    + intros a Ha. apply softmax_kernel_frame.
      intros c Hc He. apply Ha. exists c. split; assumption.
  - pose proof (config_big_row_half N Hk) as HB.
    destruct (softmax_kernel_big_row_trace y x x_stride y_stride N
                (BLOCK_SIZE (softmax_config N)) row_idx s HB)
      as (s' & Hrun & Htr).
    exists s'. split; [exact Hrun|]. split; [exact Htr|].
    intros a Ha.
    apply (softmax_kernel_big_row_frame _ _ _ _ _ _ _ _ _ _ HB Hrun).
    intros c Hc He. apply Ha. exists c. split; assumption.
Qed.

Lemma launch_ids_frame_trace (N y x x_stride y_stride : Z) (ids : list Z) :
  forall s,
  exists s',
    launch_ids (softmax_config N) y x x_stride y_stride N ids s = Some s' /\
    trace s' = trace s ++ flat_map (instance_events (softmax_config N) y x
                                                    x_stride y_stride) ids /\
    forall a, (forall r, In r ids -> ~ in_row_range y y_stride r N a) ->
              heap s' a = heap s a.
Proof.
  unfold launch_ids. induction ids as [|r t IH]; intros s.
  - exists s. split; [reflexivity|]. split.
    + simpl. rewrite app_nil_r. reflexivity.
    + reflexivity.
  - destruct (run_instance_frame_trace N y x x_stride y_stride r s)
      as (s1 & Hrun1 & Htr1 & Hfr1).
    destruct (IH s1) as (s' & Hrun & Htr & Hfr).
    exists s'. split; [|split].
    + cbn [fold_left bind]. rewrite Hrun1. exact Hrun.
    + rewrite Htr, Htr1. simpl. rewrite app_assoc. reflexivity.
    + intros a Ha. rewrite Hfr by (intros r' Hr'; apply Ha; right; exact Hr').
      apply Hfr1, Ha. left. reflexivity.
Qed.

Lemma in_arange (n r : Z) : In r (tl.arange 0 n) <-> 0 <= r < n.
Proof.
  unfold tl.arange. rewrite Z.sub_0_r, in_map_iff. split.
  - intros (i & <- & Hi). apply in_seq in Hi. lia.
  - intros Hr. exists (Z.to_nat r). split; [lia|]. apply in_seq. lia.
Qed.

(** [softmax] returns for every shape, every layout and every content of
    memory, and changes memory only at the in-range columns of the rows
    of the output tensor: the input tensor, where it does not overlap
    the output, and everything else keep their values. With no rows or
    no columns nothing at all is written. *)
Theorem softmax_frame (y x x_stride y_stride n_rows n_cols : Z) (s : state) :
  exists s',
    softmax y x x_stride y_stride n_rows n_cols s = Some s' /\
    forall a,
      (forall r, 0 <= r < n_rows -> ~ in_row_range y y_stride r n_cols a) ->
      heap s' a = heap s a.
Proof.
  destruct (launch_ids_frame_trace n_cols y x x_stride y_stride
              (tl.arange 0 n_rows) s) as (s' & Hrun & _ & Hfr).
  exists s'. split; [exact Hrun|].
  intros a Ha. apply Hfr. intros r Hr. apply Ha, in_arange, Hr.
Qed.

Lemma length_flat_map_const {A B : Type} (f : A -> list B) (n : nat)
      (l : list A) :
  (forall a, length (f a) = n) -> length (flat_map f l) = (n * length l)%nat.
Proof.
  intros H. induction l as [|a t IH]; simpl; [lia|].
  rewrite length_app, H, IH. lia.
Qed.

Lemma filter_flat_map {A B : Type} (p : B -> bool) (f : A -> list B)
      (l : list A) :
  filter p (flat_map f l) = flat_map (fun a => filter p (f a)) l.
Proof.
  induction l as [|a t IH]; [reflexivity|].
  simpl. rewrite filter_app, IH. reflexivity.
Qed.

(** The loads and stores of a whole launch of [n_rows] rows. With
    [softmax_kernel] each row is loaded once and stored once; with
    [softmax_kernel_big_row] each of the two blocks of a row is loaded
    twice and stored once. *)
Theorem softmax_loads_and_stores
        (y x x_stride y_stride n_rows n_cols : Z) (s : state) :
  exists s' evs,
    softmax y x x_stride y_stride n_rows n_cols s = Some s' /\
    trace s' = trace s ++ evs /\
    length (filter is_load evs) =
    (match k (softmax_config n_cols) with
     | k_softmax_kernel => 1
     | k_softmax_kernel_big_row => 4
     end * Z.to_nat n_rows)%nat /\
    length (filter is_store evs) =
    (match k (softmax_config n_cols) with
     | k_softmax_kernel => 1
     | k_softmax_kernel_big_row => 2
     end * Z.to_nat n_rows)%nat.
Proof.
  destruct (launch_ids_frame_trace n_cols y x x_stride y_stride
              (tl.arange 0 n_rows) s) as (s' & Hrun & Htr & _).
  exists s'. eexists. split; [exact Hrun|]. split; [exact Htr|].
  assert (Hlen : length (tl.arange 0 n_rows) = Z.to_nat n_rows).
  { unfold tl.arange. rewrite length_map, length_seq, Z.sub_0_r.
    reflexivity. }
  rewrite !filter_flat_map. unfold instance_events.
  destruct (k (softmax_config n_cols)).
  - split; (rewrite (length_flat_map_const _ 1); [rewrite Hlen; reflexivity|]);
      intros a; reflexivity.
  - split.
    + rewrite (length_flat_map_const _ 4); [rewrite Hlen; reflexivity|].
      intros a. reflexivity.
    + rewrite (length_flat_map_const _ 2); [rewrite Hlen; reflexivity|].
      intros a. reflexivity.
Qed.

(* ================================================================= *)
(** ** The order of the instances *)

Section LaunchOrder.

Variables (y x x_stride y_stride : Z).
Variables (rows : list (list R)) (N : nat).

Hypothesis Hshape : forall r, (r < length rows)%nat ->
                              length (nth r rows []) = N.
Hypothesis Hstride : Z.of_nat N <= y_stride.
Hypothesis Hfresh :
  forall r r' c c',
    (r < length rows)%nat -> (r' < length rows)%nat ->
    (c < N)%nat -> (c' < N)%nat ->
    addr y y_stride (Z.of_nat r) c <> addr x x_stride (Z.of_nat r') c'.

(** The instances of the rows [ids], run in that order: each row of
    [ids] gets its softmax, and nothing else changes. *)
Lemma launch_ids_correct (ids : list nat) :
  forall s,
    (forall r, In r ids -> (r < length rows)%nat) ->
    matrix_data (heap s) x x_stride rows ->
    exists s',
      launch_ids (softmax_config (Z.of_nat N)) y x x_stride y_stride
                 (Z.of_nat N) (map Z.of_nat ids) s = Some s' /\
      matrix_data (heap s') x x_stride rows /\
      (forall r c, In r ids -> (c < N)%nat ->
                   heap s' (addr y y_stride (Z.of_nat r) c) =
                   Fin (softmax_ref (nth r rows []) c)) /\
      (forall a,
          (forall r, In r ids ->
                     ~ in_row_range y y_stride (Z.of_nat r) (Z.of_nat N) a) ->
          heap s' a = heap s a).
Proof.
  unfold launch_ids. induction ids as [|r0 t IH]; intros s Hids Hdata.
  - exists s. split; [reflexivity|]. split; [exact Hdata|].
    split; [intros r c []|reflexivity].
  - assert (Hr0 : (r0 < length rows)%nat) by (apply Hids; left; reflexivity).
    pose proof (Hshape r0 Hr0) as Hlen.
    destruct (run_instance_correct y x x_stride y_stride (Z.of_nat r0)
                (nth r0 rows []) s) as (s1 & Hrun1 & Hval1 & Hfr1).
    { apply Hdata, Hr0. }
    { rewrite Hlen. intros c c' Hc Hc'. apply Hfresh; assumption. }
    rewrite Hlen in Hrun1, Hval1, Hfr1.
    assert (Hdata1 : matrix_data (heap s1) x x_stride rows).
    { intros r Hr j Hj. rewrite Hfr1; [apply Hdata; assumption|].
      intros (c & Hc & He).
      apply (Hfresh r0 r (Z.to_nat c) j); try lia.
      { rewrite <- (Hshape r Hr). exact Hj. }
      unfold addr. lia. }
    destruct (IH s1) as (s' & Hrun & Hdata' & Hval & Hfr).
    { intros r Hr. apply Hids. right. exact Hr. }
    { exact Hdata1. }
    exists s'. split; [|split; [exact Hdata'|split]].
    + cbn [map fold_left bind]. rewrite Hrun1. exact Hrun.
    + intros r c Hr Hc.
      destruct (in_dec Nat.eq_dec r t) as [Hin|Hnin];
        [apply Hval; assumption|].
      destruct Hr as [<-|Hr]; [|contradiction].
      rewrite Hfr; [apply Hval1, Hc|].
      intros r Hr. apply (in_row_range_disjoint _ _ _ (Z.of_nat r0)).
      * exact Hstride.
      * intros E. apply Nat2Z.inj in E. subst r. contradiction.
      * exists (Z.of_nat c). unfold addr. lia.
    + intros a Ha. rewrite Hfr by (intros r Hr; apply Ha; right; exact Hr).
      apply Hfr1, Ha. left. reflexivity.
Qed.

(** The order in which the instances of the grid run does not matter:
    run in any order [ids] of the rows, they leave the memory that the
    launch in the order of the program ids leaves. *)
Theorem launch_order_irrelevant (ids : list nat) (s : state) :
  matrix_data (heap s) x x_stride rows ->
  Permutation ids (seq 0 (length rows)) ->
  exists s1 s2,
    launch_ids (softmax_config (Z.of_nat N)) y x x_stride y_stride
               (Z.of_nat N) (map Z.of_nat ids) s = Some s1 /\
    softmax y x x_stride y_stride (Z.of_nat (length rows)) (Z.of_nat N) s
    = Some s2 /\
    forall a, heap s1 a = heap s2 a.
Proof.
  intros Hdata Hperm.
  assert (Hin : forall r, In r ids <-> (r < length rows)%nat).
  { intros r. split.
    - intros H. apply (Permutation_in _ Hperm) in H. apply in_seq in H. lia.
    - intros H. apply (Permutation_in _ (Permutation_sym Hperm)).
      apply in_seq. lia. }
  destruct (launch_ids_correct ids s) as (s1 & Hrun1 & _ & Hval1 & Hfr1);
    [intros r Hr; apply Hin, Hr|exact Hdata|].
  destruct (launch_ids_correct (seq 0 (length rows)) s)
    as (s2 & Hrun2 & _ & Hval2 & Hfr2);
    [intros r Hr; apply in_seq in Hr; lia|exact Hdata|].
  exists s1, s2. split; [exact Hrun1|]. split.
  - unfold softmax, launch, tl.arange. rewrite Z.sub_0_r, Nat2Z.id.
    unfold launch_ids in Hrun2.
    rewrite (map_ext (fun i => 0 + Z.of_nat i) Z.of_nat)
      by (intros i; apply Z.add_0_l).
    exact Hrun2.
  - intros a.
    destruct (classic (exists r c, (r < length rows)%nat /\ (c < N)%nat /\
                                   a = addr y y_stride (Z.of_nat r) c))
      as [(r & c & Hr & Hc & ->)|Hout].
    + rewrite Hval1, Hval2; trivial; [apply in_seq; lia|apply Hin, Hr].
    + assert (Ho : forall r, (r < length rows)%nat ->
                ~ in_row_range y y_stride (Z.of_nat r) (Z.of_nat N) a).
      { intros r Hr (c & Hc & He). apply Hout.
        exists r, (Z.to_nat c). split; [exact Hr|]. split; [lia|].
        unfold addr. rewrite He. lia. }
      rewrite Hfr1, Hfr2; trivial.
      * intros r Hr. apply Ho. apply in_seq in Hr. lia.
      * intros r Hr. apply Ho, Hin, Hr.
Qed.

End LaunchOrder.

(** A matrix of two rows of three ones at address 0, as [ones_state]
    holds it. *)
Lemma ones_matrix_data :
  matrix_data (heap ones_state) 0 3 [repeat 1%R 3; repeat 1%R 3].
Proof.
  intros r Hr. destruct r as [|[|r]]; simpl in Hr; try lia;
    apply (ones_row_data _ 3).
Defined.

Lemma ones_matrix_shape (r : nat) :
  (r < 2)%nat -> length (nth r [repeat 1%R 3; repeat 1%R 3] []) = 3%nat.
Proof. intros Hr. destruct r as [|[|r]]; [reflexivity|reflexivity|lia]. Defined.

Lemma ones_matrix_fresh (r r' c c' : nat) :
  (r < 2)%nat -> (r' < 2)%nat -> (c < 3)%nat -> (c' < 3)%nat ->
  addr 100 3 (Z.of_nat r) c <> addr 0 3 (Z.of_nat r') c'.
Proof. intros Hr Hr' Hc Hc'. unfold addr. lia. Defined.

Lemma launch_order_irrelevant_witness :
  exists s1 s2,
    launch_ids (softmax_config 3) 100 0 3 3 3 [1; 0] ones_state = Some s1 /\
    softmax 100 0 3 3 2 3 ones_state = Some s2 /\
    forall a, heap s1 a = heap s2 a.
Proof.
  apply (launch_order_irrelevant 100 0 3 3 [repeat 1%R 3; repeat 1%R 3] 3
           ones_matrix_shape ltac:(lia) ones_matrix_fresh [1; 0]%nat
           ones_state ones_matrix_data).
  apply perm_swap.
Defined.

(* ================================================================= *)
(** ** [naive_softmax] on finite rows *)

Lemma torch_row_max_Fin (xs : list R) :
  xs <> [] -> torch_row_max (map Fin xs) = Some (Fin (row_max xs)).
Proof.
  induction xs as [|y t IH]; intros Hne; [congruence|].
  destruct t as [|z t]; [reflexivity|].
  change (torch_row_max (map Fin (y :: z :: t)))
    with (option_map (torch_max2 (Fin y))
                     (torch_row_max (map Fin (z :: t)))).
  rewrite IH by discriminate. reflexivity.
Qed.

Lemma torch_max_dim1_Fin (rows : list (list R)) :
  (forall xs, In xs rows -> xs <> []) ->
  torch_max_dim1 (map (map Fin) rows) =
  Some (map (fun xs => Fin (row_max xs)) rows).
Proof.
  induction rows as [|xs t IH]; intros H; [reflexivity|].
  simpl. rewrite torch_row_max_Fin by (apply H; left; reflexivity).
  cbn [bind]. rewrite IH by (intros ys Hys; apply H; right; exact Hys).
  reflexivity.
Qed.

Lemma combine_map_same {A B C : Type} (f : A -> B) (g : A -> C)
      (l : list A) :
  combine (map f l) (map g l) = map (fun a => (f a, g a)) l.
Proof. induction l as [|a t IH]; simpl; [|rewrite IH]; reflexivity. Qed.

Lemma naive_softmax_Fin (rows : list (list R)) :
  (forall xs, In xs rows -> xs <> []) ->
  naive_softmax (map (map Fin) rows) =
  Some (map (fun xs => map Fin (softmax_row xs)) rows).
Proof.
  intros H. unfold naive_softmax, naive_softmax_traced.
  rewrite torch_max_dim1_Fin by exact H. cbn [bind option_map fst].
  f_equal. unfold torch_div_col, torch_sum_dim1, torch_exp, torch_sub_col.
  rewrite combine_map_same, !map_map. cbn [fst snd].
  rewrite combine_map_same, map_map. cbn [fst snd].
  apply map_ext_in. intros xs Hxs.
  rewrite softmax_row_eq, !map_map.
  assert (Hsum : fold_right fadd (Fin 0%R)
                   (map (fun x => fexp (fsub (Fin x) (Fin (row_max xs)))) xs)
                 = Fin (sum_exp xs (row_max xs))).
  { unfold sum_exp. clear. generalize (row_max xs) as M. intros M.
    induction xs as [|x t IH]; [reflexivity|].
    cbn [map fold_right]. rewrite IH. reflexivity. }
  rewrite Hsum. apply map_ext. intros x. simpl.
  pose proof (sum_exp_pos xs (row_max xs) (H xs Hxs)).
  destruct (Req_dec_T (sum_exp xs (row_max xs)) 0); [lra|reflexivity].
Qed.

(** The fused [softmax] computes what [naive_softmax] computes: on a
    finite matrix with at least one column, stored in a tensor that the
    output tensor does not overlap, every element of the output tensor
    after [softmax] is the element of the result of [naive_softmax] at
    the same row and column. *)
Theorem softmax_agrees_with_naive_softmax
        (y x x_stride y_stride : Z) (rows : list (list R)) (N : nat)
        (s : state) :
  (0 < N)%nat ->
  (forall r, (r < length rows)%nat -> length (nth r rows []) = N) ->
  Z.of_nat N <= y_stride ->
  (forall r r' c c',
      (r < length rows)%nat -> (r' < length rows)%nat ->
      (c < N)%nat -> (c' < N)%nat ->
      addr y y_stride (Z.of_nat r) c <> addr x x_stride (Z.of_nat r') c') ->
  matrix_data (heap s) x x_stride rows ->
  exists s' out,
    softmax y x x_stride y_stride (Z.of_nat (length rows)) (Z.of_nat N) s
    = Some s' /\
    naive_softmax (map (map Fin) rows) = Some out /\
    forall r c, (r < length rows)%nat -> (c < N)%nat ->
                heap s' (addr y y_stride (Z.of_nat r) c) =
                nth c (nth r out []) NaN.
Proof.
  intros HN Hshape Hstride Hfresh Hdata.
  destruct (softmax_correct y x x_stride y_stride rows N Hshape Hstride
              Hfresh s Hdata) as (s' & Hrun & Hval).
  exists s'. eexists. split; [exact Hrun|]. split.
  - apply naive_softmax_Fin. intros xs Hxs.
    apply In_nth with (d := []) in Hxs. destruct Hxs as (r & Hr & <-).
    intros E. pose proof (Hshape r Hr) as Hl. rewrite E in Hl.
    simpl in Hl. lia.
  - intros r c Hr Hc. rewrite Hval by assumption.
    rewrite (nth_indep _ [] (map Fin (softmax_row [])))
      by (rewrite length_map; exact Hr).
    rewrite (map_nth (fun xs => map Fin (softmax_row xs))).
    assert (Hc' : (c < length (nth r rows []))%nat)
      by (rewrite Hshape; assumption).
    rewrite (nth_indep _ NaN (Fin 0%R))
      by (rewrite length_map, softmax_row_length; exact Hc').
    rewrite (map_nth Fin), nth_softmax_row by exact Hc'. reflexivity.
Qed.

Lemma softmax_agrees_with_naive_softmax_witness :
  exists s' out,
    softmax 100 0 3 3 2 3 ones_state = Some s' /\
    naive_softmax (map (map Fin) [repeat 1%R 3; repeat 1%R 3]) = Some out /\
    forall r c, (r < 2)%nat -> (c < 3)%nat ->
                heap s' (addr 100 3 (Z.of_nat r) c) =
                nth c (nth r out []) NaN.
Proof.
  apply (softmax_agrees_with_naive_softmax 100 0 3 3
           [repeat 1%R 3; repeat 1%R 3] 3 ones_state).
  - lia.
  - apply ones_matrix_shape.
  - lia.
  - apply ones_matrix_fresh.
  - apply ones_matrix_data.
Defined.

(* ================================================================= *)
(** ** The traffic of [naive_softmax] *)

Lemma numel_rect (x : list (list float)) (N : nat) :
  (forall row, In row x -> length row = N) ->
  numel x = (length x * N)%nat.
Proof.
  unfold numel. induction x as [|row t IH]; intros H; [reflexivity|].
  simpl. rewrite (H row (or_introl eq_refl)).
  rewrite IH by (intros r Hr; apply H; right; exact Hr). reflexivity.
Qed.

Lemma torch_row_max_some (row : list float) :
  row <> [] -> exists m, torch_row_max row = Some m.
Proof.
  induction row as [|v t IH]; intros Hne; [congruence|].
  destruct t as [|w t]; [exists v; reflexivity|].
  destruct IH as (m & Hm); [discriminate|].
  exists (torch_max2 v m).
  change (torch_row_max (v :: w :: t))
    with (option_map (torch_max2 v) (torch_row_max (w :: t))).
  rewrite Hm. reflexivity.
Qed.

Lemma torch_max_dim1_some (x : list (list float)) :
  (forall row, In row x -> row <> []) ->
  exists v, torch_max_dim1 x = Some v /\ length v = length x.
Proof.
  induction x as [|row t IH]; intros H; [exists []; split; reflexivity|].
  destruct (torch_row_max_some row (H row (or_introl eq_refl))) as (m & Hm).
  destruct IH as (v & Hv & Hlen);
    [intros r Hr; apply H; right; exact Hr|].
  exists (m :: v). simpl. rewrite Hm. cbn [bind]. rewrite Hv.
  split; [reflexivity|]. simpl. rewrite Hlen. reflexivity.
Qed.

Lemma col_op_shape (f : float -> float -> float) (x : list (list float))
      (v : list float) (N : nat) :
  length v = length x ->
  (forall row, In row x -> length row = N) ->
  let z := map (fun rm => map (fun a => f a (snd rm)) (fst rm))
               (combine x v) in
  length z = length x /\ forall row, In row z -> length row = N.
Proof.
  intros Hlen H z. subst z. split.
  - rewrite length_map, length_combine. lia.
  - intros row Hrow. apply in_map_iff in Hrow.
    destruct Hrow as ([r m] & <- & Hin). rewrite length_map. simpl.
    apply H. apply in_combine_l in Hin. exact Hin.
Qed.

Lemma torch_exp_shape (x : list (list float)) (N : nat) :
  (forall row, In row x -> length row = N) ->
  length (torch_exp x) = length x /\
  forall row, In row (torch_exp x) -> length row = N.
Proof.
  intros H. unfold torch_exp. split; [apply length_map|].
  intros row Hrow. apply in_map_iff in Hrow.
  destruct Hrow as (r & <- & Hin). rewrite length_map. apply H, Hin.
Qed.

(** The count in the comments of [naive_softmax]: on a matrix of M rows
    and N >= 1 columns the five tensor operations read 5MN + 2M elements
    and write 3MN + 2M elements in total. *)
Theorem naive_softmax_traffic (x : list (list float)) (N : nat) :
  (0 < N)%nat ->
  (forall row, In row x -> length row = N) ->
  exists ret t,
    naive_softmax_traced x = Some (ret, t) /\
    elements_read t = (5 * (length x * N) + 2 * length x)%nat /\
    elements_written t = (3 * (length x * N) + 2 * length x)%nat.
Proof.
  intros HN Hshape.
  destruct (torch_max_dim1_some x) as (v & Hv & Hlen).
  { intros row Hrow E. pose proof (Hshape row Hrow) as Hl.
    rewrite E in Hl. simpl in Hl. lia. }
  unfold naive_softmax_traced. rewrite Hv. cbn [bind].
  eexists. eexists. split; [reflexivity|].
  destruct (col_op_shape fsub x v N Hlen Hshape) as [Hz1 Hz2].
  fold (torch_sub_col x v) in Hz1, Hz2.
  destruct (torch_exp_shape (torch_sub_col x v) N Hz2) as [He1 He2].
  assert (Hd : length (torch_sum_dim1 (torch_exp (torch_sub_col x v))) =
               length x).
  { unfold torch_sum_dim1. rewrite length_map, He1, Hz1. reflexivity. }
  destruct (col_op_shape fdiv (torch_exp (torch_sub_col x v))
              (torch_sum_dim1 (torch_exp (torch_sub_col x v))) N)
    as [Hr1 Hr2]; [rewrite Hd, He1, Hz1; reflexivity|exact He2|].
  fold (torch_div_col (torch_exp (torch_sub_col x v))
          (torch_sum_dim1 (torch_exp (torch_sub_col x v)))) in Hr1, Hr2.
  cbn [traffic_add elements_read elements_written].
  rewrite (numel_rect _ N Hr2), (numel_rect _ N He2), (numel_rect _ N Hz2),
    (numel_rect _ N Hshape).
  rewrite Hr1, Hd, He1, Hz1, Hlen. split; lia.
Qed.

Lemma naive_softmax_traffic_witness :
  exists ret t,
    naive_softmax_traced [[Fin 1%R; Fin 1%R; Fin 1%R];
                          [Fin 1%R; Fin 1%R; Fin 1%R]] = Some (ret, t) /\
    elements_read t = 34%nat /\ elements_written t = 22%nat.
Proof.
  apply (naive_softmax_traffic [[Fin 1%R; Fin 1%R; Fin 1%R];
                                [Fin 1%R; Fin 1%R; Fin 1%R]] 3).
  - lia.
  - intros row [<-|[<-|[]]]; reflexivity.
Defined.

(* ================================================================= *)
(** ** [benchmark] *)



Lemma gbps_antitone (nelement element_size : Z) (m1 m2 : R) :
  0 <= nelement -> 0 <= element_size ->
  (0 < m1 <= m2)%R ->
  (0 <= gbps nelement element_size m2 <= gbps nelement element_size m1)%R.
Proof.
  intros Hn He Hm. unfold gbps.
  assert (Hn' : (0 <= IZR nelement)%R) by (apply IZR_le; exact Hn).
  assert (He' : (0 <= IZR element_size)%R) by (apply IZR_le; exact He).
  assert (HA : (0 <= 2 * IZR nelement * IZR element_size * 1e-9)%R).
  { apply Rmult_le_pos; [|lra].
    apply Rmult_le_pos; [|exact He']. lra. }
  set (A := (2 * IZR nelement * IZR element_size * 1e-9)%R) in *.
  assert (H1 : (0 < m1 * 1e-3)%R) by (apply Rmult_lt_0_compat; lra).
  assert (H2 : (0 < m2 * 1e-3)%R) by (apply Rmult_lt_0_compat; lra).
  unfold Rdiv. split.
  - apply Rmult_le_pos; [exact HA|]. left. apply Rinv_0_lt_compat, H2.
  - apply Rmult_le_compat_l; [exact HA|].
    apply Rinv_le_contravar; [exact H1|].
    apply Rmult_le_compat_r; lra.
Qed.

(** [benchmark] returns the bandwidth at the measured time, then at the
    longest and at the shortest time. So when the timer returns times
    with [0 < min_ms <= ms <= max_ms], the triple it returns is a
    bandwidth between its lower and its upper bound, in that order. *)
Theorem benchmark_bandwidth_order
        (do_bench : workload -> Z -> Z -> R * R * R) (M N : Z)
        (provider : string) (g lo hi : R) :
  0 <= M * N ->
  (forall w rep warmup,
      (0 < snd (fst (do_bench w rep warmup))
       <= fst (fst (do_bench w rep warmup)))%R /\
      (fst (fst (do_bench w rep warmup)) <= snd (do_bench w rep warmup))%R) ->
  benchmark do_bench M N provider = Some (g, lo, hi) ->
  (0 <= lo <= g)%R /\ (g <= hi)%R.
Proof.
  intros Hmn Htimes. unfold benchmark. cbv zeta.
  assert (Hcase : forall w rep warmup,
            match (let (p, max_ms) := do_bench w rep warmup in
                   let (ms, min_ms) := p in
                   Some (gbps (M * N) 4 ms, gbps (M * N) 4 max_ms,
                         gbps (M * N) 4 min_ms))
            with
            | Some (g', lo', hi') => (0 <= lo' <= g')%R /\ (g' <= hi')%R
            | None => True
            end).
  { intros w rep warmup. specialize (Htimes w rep warmup).
    destruct (do_bench w rep warmup) as [[ms mn] mx]. simpl in Htimes.
    destruct Htimes as [[H0 H1] H2].
    pose proof (gbps_antitone (M * N) 4 ms mx Hmn ltac:(lia)
                  ltac:(split; lra)) as Ha.
    pose proof (gbps_antitone (M * N) 4 mn ms Hmn ltac:(lia)
                  ltac:(split; lra)) as Hb.
    split; lra. }
  destruct (String.eqb provider "torch-jit").
  - intros H. specialize (Hcase w_naive_softmax 1 1).
    destruct (do_bench w_naive_softmax 1 1) as [[ms mn] mx].
    injection H as <- <- <-. exact Hcase.
  - destruct (String.eqb provider "triton").
    + intros H. specialize (Hcase w_softmax 100 25).
      destruct (do_bench w_softmax 100 25) as [[ms mn] mx].
      injection H as <- <- <-. exact Hcase.
    + destruct (String.eqb provider "torch-native").
      * intros H. specialize (Hcase w_torch_softmax 100 25).
        destruct (do_bench w_torch_softmax 100 25) as [[ms mn] mx].
        injection H as <- <- <-. exact Hcase.
      * discriminate.
Qed.

Lemma benchmark_bandwidth_order_witness :
  (0 <= gbps (4096 * 12672) 4 3 <= gbps (4096 * 12672) 4 2)%R /\
  (gbps (4096 * 12672) 4 2 <= gbps (4096 * 12672) 4 1)%R.
Proof.
  apply (benchmark_bandwidth_order (fun _ _ _ => (2%R, 1%R, 3%R)) 4096
           12672 "triton").
  - lia.
  - intros w rep warmup. simpl. lra.
  - reflexivity.
Defined.

(* ================================================================= *)
(** ** The whole launch on a finite matrix *)

(** [softmax] on a finite matrix of M rows and N columns, stored in a
    tensor that the output tensor does not overlap and whose output rows
    do not overlap each other: the launch returns, and the output tensor
    then holds the softmax of row [r] at every column of every row [r],
    whichever kernel the number of columns selects. *)
Theorem softmax_launch_correct
        (y x x_stride y_stride : Z) (rows : list (list R)) (N : nat)
        (s : state) :
  (forall r, (r < length rows)%nat -> length (nth r rows []) = N) ->
  Z.of_nat N <= y_stride ->
  (forall r r' c c',
      (r < length rows)%nat -> (r' < length rows)%nat ->
      (c < N)%nat -> (c' < N)%nat ->
      addr y y_stride (Z.of_nat r) c <> addr x x_stride (Z.of_nat r') c') ->
  matrix_data (heap s) x x_stride rows ->
  exists s',
    softmax y x x_stride y_stride (Z.of_nat (length rows)) (Z.of_nat N) s
    = Some s' /\
    forall r, (r < length rows)%nat ->
              row_written (heap s') y y_stride (Z.of_nat r)
                          (softmax_row (nth r rows [])).
Proof.
  intros Hshape Hstride Hfresh Hdata.
  destruct (launch_ids_correct y x x_stride y_stride rows N Hshape Hstride
              Hfresh (seq 0 (length rows)) s) as (s' & Hrun & _ & Hval & _).
  - intros r Hr. apply in_seq in Hr. lia.
  - exact Hdata.
  - exists s'. split.
    + unfold softmax, launch, tl.arange. rewrite Z.sub_0_r, Nat2Z.id.
      unfold launch_ids in Hrun.
      rewrite (map_ext (fun i => 0 + Z.of_nat i) Z.of_nat)
        by (intros i; apply Z.add_0_l).
      exact Hrun.
    + intros r Hr c Hc. rewrite softmax_row_length in Hc.
      rewrite nth_softmax_row by exact Hc.
      apply Hval; [apply in_seq; lia|].
      rewrite <- (Hshape r Hr). exact Hc.
Qed.

Lemma softmax_launch_correct_witness :
  exists s',
    softmax 100 0 3 3 2 3 ones_state = Some s' /\
    forall r, (r < 2)%nat ->
              row_written (heap s') 100 3 (Z.of_nat r)
                          (softmax_row (nth r [repeat 1%R 3; repeat 1%R 3]
                                            [])).
Proof.
  apply (softmax_launch_correct 100 0 3 3 [repeat 1%R 3; repeat 1%R 3] 3
           ones_state).
  - apply ones_matrix_shape.
  - lia.
  - apply ones_matrix_fresh.
  - apply ones_matrix_data.
Defined.

(* ================================================================= *)
(** ** Blocks of the launch *)

(** [tile_size] and [tile_count] are the size and the number of the
    blocks the instances of a launch load: an instance returns, and the
    blocks of pointers of the loads it has logged are [tile_count]
    distinct blocks of [tile_size] positions each. *)
Lemma tiles_match_kernel (N y x x_stride y_stride row_idx : Z) (s : state) :
  exists s' evs blocks,
    run_instance (softmax_config N) y x x_stride y_stride N row_idx s
    = Some s' /\
    trace s' = trace s ++ evs /\
    (forall ptrs, In (EvLoad ptrs) evs <-> In ptrs blocks) /\
    NoDup blocks /\
    Z.of_nat (length blocks) = tile_count (softmax_config N) /\
    forall ptrs, In ptrs blocks ->
                 Z.of_nat (length ptrs) = tile_size (softmax_config N).
Proof.
  destruct (run_instance_frame_trace N y x x_stride y_stride row_idx s)
    as (s' & Hrun & Htr & _).
  exists s', (instance_events (softmax_config N) y x x_stride y_stride
                              row_idx).
  unfold instance_events, tile_count, tile_size in *.
  destruct (k (softmax_config N)) eqn:Hk.
  - exists [block_ptrs (x + row_idx * x_stride) 0
                       (BLOCK_SIZE (softmax_config N))].
    split; [exact Hrun|]. split; [exact Htr|].
    assert (Hpos : 0 <= BLOCK_SIZE (softmax_config N)).
    { unfold softmax_config. cbn [BLOCK_SIZE].
      pose proof (next_power_of_2_pow2 N) as (j & Hj & ->).
      apply Z.pow_nonneg. lia. }
    split; [|split; [|split]].
    + intros ptrs. cbn [In]. split.
      * intros [H|[H|[]]]; [injection H as <-; left; reflexivity
                           |discriminate].
      * intros [<-|[]]. left. reflexivity.
    + constructor; [intros []|constructor].
    + reflexivity.
    + intros ptrs [<-|[]]. rewrite block_ptrs_length. lia.
  - pose proof (config_big_row_half N Hk) as HB.
    set (B := BLOCK_SIZE (softmax_config N) / 2) in *.
    exists [block_ptrs (x + row_idx * x_stride) 0 B;
            block_ptrs (x + row_idx * x_stride) B B].
    split; [exact Hrun|]. split; [exact Htr|].
    split; [|split; [|split]].
    + intros ptrs. rewrite big_row_events_loads. cbn [In]. split.
      * intros [->| ->]; auto.
      * intros [<-|[<-|[]]]; auto.
    + constructor.
      * intros [H|[]].
        apply (block_ptrs_distinct (x + row_idx * x_stride) B HB).
        symmetry. exact H.
      * constructor; [intros []|constructor].
    + reflexivity.
    + intros ptrs [<-|[<-|[]]]; rewrite block_ptrs_length; lia.
Qed.
